(** * Multiple travelling salesmen: MILP formulation and route extraction

    A verification development for [task_scheduling]: the constraint system
    built by [mtsp_solver] (mtsp_problem.py), the loop that turns the selected
    edges into routes, and [calculate_distances] (utils.py); then other
    functions of utils.py: the rows of the nodes that the plotting functions
    select for a solution, the correlation image of
    [plot_problem_correlation_gradient], and [generate_grid].

    Conventions of the embedding.
    - The optimiser is an external black box.  It is a parameter [optimize]
      that, given the model, either yields an assignment of the variables and
      the objective value it reports, or yields nothing: reading the
      attribute [X] of a variable then raises, and so does reading [objVal].
    - Values of the integer and binary variables are integers ([Z]); the
      source's test [solution[i, j] > 0.5] is the integer test [1 < 2 * x].
    - Cost entries are opaque: the program only hands them to the optimiser.
      The time limit, a float in the source, is a whole number of time units.
    - Floating-point numbers are IEEE 754 binary64 numbers, the kernel's
      primitive floats; an array has an element type, in which its rows are
      subtracted.  [np.exp] and [np.log] are parameters: their rounding is
      the platform's.
    - Of the plotting functions only the data they compute is embedded, not
      the calls that draw it; the image is taken at one point of the mesh.
    - The sizes and the start node of [generate_grid] are integers. *)

From Stdlib Require Import ZArith List Lia Floats.
From Stdlib Require Uint63.
From stdpp Require Import gmap list strings pretty.

Local Open Scope Z_scope.

(** * The program *)

(** ** Python and Gurobi values *)

(** [range(a, b)] *)
Definition range (a b : nat) : list nat := seq a (b - a).

Inductive exn := IndexError | GurobiError | AttributeError.

Inductive VType := BINARY | INTEGER.

(** A decision variable of the model: either [e_vars[i, j]] or [u_vars[i]]. *)
Inductive var := e_var (i j : nat) | u_var (i : nat).

Global Instance var_eq_dec : EqDecision var.
Proof. solve_decision. Defined.

(** A linear expression is a list of terms [coefficient * variable]. *)
Definition LinExpr := list (Z * var).

Inductive Sense := LE | GE | EQ.

(** A linear constraint [lhs sense rhs], as [addConstr] receives it. *)
Record Constr := mkConstr { c_lhs : LinExpr; c_sense : Sense; c_rhs : Z }.

Global Instance Sense_eq_dec : EqDecision Sense.
Proof. solve_decision. Defined.
Global Instance Constr_eq_dec : EqDecision Constr.
Proof. solve_decision. Defined.

(** [gurobipy.quicksum] of a generator of variables. *)
Definition quicksum (vs : list var) : LinExpr := (λ v, (1, v)) <$> vs.

(** An assignment gives every variable its value [X]. *)
Definition Assignment := var → Z.

Definition eval (x : Assignment) (ex : LinExpr) : Z :=
  foldr (λ t acc, t.1 * x t.2 + acc) 0 ex.

Definition holds (x : Assignment) (c : Constr) : Prop :=
  match c_sense c with
  | LE => (eval x (c_lhs c) <= c_rhs c)%Z
  | GE => (eval x (c_lhs c) >= c_rhs c)%Z
  | EQ => eval x (c_lhs c) = c_rhs c
  end.

Global Instance holds_dec x c : Decision (holds x c).
Proof. unfold holds. destruct (c_sense c); apply _. Defined.

(** The cost matrix, a two-dimensional array given by its rows. *)
Abbreviation Matrix Cost := (list (list Cost)) (only parsing).

Section Formulation.

(** The type of the entries of the cost matrix. *)
Context {Cost : Type}.

(** [cost[i, j]]; [None] is Python's [IndexError]. *)
Definition cost_at (cost : Matrix Cost) (i j : nat) : option Cost :=
  cost !! i ≫= (.!! j).

(** [cost] is a square array. *)
Definition square (cost : Matrix Cost) : Prop :=
  Forall (λ row, length row = length cost) cost.

(** What the model keeps for a variable.  A [BINARY] variable ranges over
    [0 .. 1] until its upper bound is lowered. *)
Record Var := mkVar {
  lb : Z; ub : Z; vtype : VType; obj : option Cost; name : string }.

Definition set_ub (b : Z) (v : Var) : Var :=
  {| lb := lb v; ub := b; vtype := vtype v; obj := obj v; name := name v |}.

Record Model := mkModel {
  _vars : gmap (nat * nat) Var;
  _uvars : gmap nat Var;
  constrs : list Constr;
  OutputFlag : Z;
  TimeLimit : Z }.

(** *** Lines 66-79: the variables *)

(** [for i in range(n): for j in range(n)] *)
Definition index_pairs (n : nat) : list (nat * nat) :=
  i ← range 0 n; j ← range 0 n; [(i, j)].

Definition e_name (i j : nat) : string := "e" +:+ pretty i +:+ "_" +:+ pretty j.
Definition u_name (i : nat) : string := "u" +:+ pretty i.

(** [e_vars[i, j] = m.addVar(obj=cost[i, j], vtype=BINARY, name=...)]; the
    loop stops at the first [IndexError]. *)
Definition add_e_var (cost : Matrix Cost) (acc : option (gmap (nat * nat) Var))
    (ij : nat * nat) : option (gmap (nat * nat) Var) :=
  ev ← acc;
  c ← cost_at cost ij.1 ij.2;
  Some (<[ij := mkVar 0 1 BINARY (Some c) (e_name ij.1 ij.2)]> ev).

Definition create_e_vars (cost : Matrix Cost) (n : nat) : option (gmap (nat * nat) Var) :=
  foldl (add_e_var cost) (Some ∅) (index_pairs n).

(** [for i in range(n): e_vars[i, i].ub = 0] *)
Definition forbid_loops (n : nat) (ev : gmap (nat * nat) Var) : gmap (nat * nat) Var :=
  foldl (λ acc i, alter (set_ub 0) (i, i) acc) ev (range 0 n).

(** [u_vars[i] = m.addVar(lb=0, ub=L, vtype=INTEGER, name=...)] *)
Definition create_u_vars (n : nat) (L : Z) : gmap nat Var :=
  foldl (λ acc i, <[i := mkVar 0 L INTEGER None (u_name i)]> acc) ∅ (range 0 n).

(** *** Lines 81-103: the constraints, in the order of the [addConstr] calls *)

Definition depot_out (n salesmen : nat) : Constr :=
  mkConstr (quicksum ((λ i, e_var 0 i) <$> range 1 n)) EQ (Z.of_nat salesmen).

Definition depot_in (n salesmen : nat) : Constr :=
  mkConstr (quicksum ((λ i, e_var i 0) <$> range 1 n)) EQ (Z.of_nat salesmen).

Definition leave_once (n i : nat) : Constr :=
  mkConstr (quicksum ((λ j, e_var i j) <$> filter (λ j, i ≠ j) (range 0 n))) EQ 1.

Definition enter_once (n i : nat) : Constr :=
  mkConstr (quicksum ((λ j, e_var j i) <$> filter (λ j, i ≠ j) (range 0 n))) EQ 1.

Definition degree_constrs (n salesmen : nat) : list Constr :=
  [depot_out n salesmen; depot_in n salesmen]
  ++ (leave_once n <$> range 1 n)
  ++ (enter_once n <$> range 1 n).

Definition first_bound (L : Z) (i : nat) : Constr :=
  mkConstr [(1, u_var i); (L - 2, e_var 0 i); (-1, e_var i 0)] LE (L - 1).

Definition last_bound (K : Z) (i : nat) : Constr :=
  mkConstr [(1, u_var i); (1, e_var 0 i); (2 - K, e_var i 0)] GE 2.

Definition not_both (i : nat) : Constr :=
  mkConstr [(1, e_var 0 i); (1, e_var i 0)] LE 1.

Definition order_pair (L : Z) (i j : nat) : Constr :=
  mkConstr [(1, u_var i); (-1, u_var j); (L, e_var i j); (L - 2, e_var j i)] LE (L - 1).

Definition subtour_constrs (n : nat) (K L : Z) : list Constr :=
  (first_bound L <$> range 1 n)
  ++ (last_bound K <$> range 1 n)
  ++ (not_both <$> range 1 n)
  ++ (i ← range 1 n; j ← range 1 n; if decide (i ≠ j) then [order_pair L i j] else []).

(** *** Lines 52-109: the model handed to the optimiser *)

Definition formulate (cost : Matrix Cost) (salesmen : nat)
    (min_cities max_cities : option Z) (output_flag time_limit : option Z)
    : option Model :=
  let n := length cost in
  let K := default 2 min_cities in
  let L := default (Z.of_nat n) max_cities in
  e_vars ← create_e_vars cost n;
  let e_vars := forbid_loops n e_vars in
  let u_vars := create_u_vars n L in
  Some {| _vars := e_vars; _uvars := u_vars;
          constrs := degree_constrs n salesmen ++ subtour_constrs n K L;
          OutputFlag := default 0 output_flag;
          TimeLimit := default 60 time_limit |}.

(** *** What the optimiser guarantees of an assignment it returns *)

Definition respects_bounds (x : Assignment) (m : Model) : Prop :=
  map_Forall (λ ij v, (lb v <= x (e_var ij.1 ij.2) <= ub v)%Z) (_vars m)
  ∧ map_Forall (λ i v, (lb v <= x (u_var i) <= ub v)%Z) (_uvars m).

Definition feasible (x : Assignment) (m : Model) : Prop :=
  respects_bounds x m ∧ Forall (holds x) (constrs m).

Global Instance respects_bounds_dec x m : Decision (respects_bounds x m).
Proof. unfold respects_bounds. apply _. Defined.

Global Instance feasible_dec x m : Decision (feasible x m).
Proof. unfold feasible. apply _. Defined.

End Formulation.

Arguments Var : clear implicits.
Arguments Model : clear implicits.

(** ** Lines 112-131: from the assignment to the routes *)

(** [selected = [(i, j) for i in range(n) for j in range(n) if solution[i, j] > 0.5]] *)
Definition select (n : nat) (x : Assignment) : list (nat * nat) :=
  i ← range 0 n; j ← range 0 n;
  if decide (1 < 2 * x (e_var i j)) then [(i, j)] else [].

(** The objects the loop updates in place, and its local [next_city]. *)
Record Walk := mkWalk {
  routes : list (list nat);
  next_city : nat;
  selected : list (nat * nat) }.

(** The body of [if selected[j][0] == next_city:] for salesman [i]:
    [routes[i].append(next_city); next_city = selected[j][1]; selected.pop(j)]. *)
Definition follow (i j : nat) (edge : nat * nat) (w : Walk) : Walk :=
  {| routes := alter (λ r, r ++ [next_city w]) i (routes w);
     next_city := edge.2;
     selected := delete j (selected w) |}.

(** [for j in range(len(selected)): if ...: ...; break], the indices still to
    be tried being [js].  [None] is the [IndexError] of [selected[j]]. *)
Fixpoint scan (i : nat) (js : list nat) (w : Walk) : option Walk :=
  match js with
  | [] => Some w
  | j :: js' =>
      edge ← selected w !! j;
      if decide (edge.1 = next_city w) then Some (follow i j edge w)
      else scan i js' w
  end.

(** What stops a run of the program. *)
Inductive stop := Raised (e : exn) | OutOfFuel.

(** [while not finished: ...; if next_city == 0: finished = True], with a
    bound [fuel] on the number of iterations. *)
Fixpoint while_not_finished (fuel : nat) (i : nat) (w : Walk) : stop + Walk :=
  match fuel with
  | O => inl OutOfFuel
  | S fuel' =>
      match scan i (range 0 (length (selected w))) w with
      | None => inl (Raised IndexError)
      | Some w' =>
          if decide (next_city w' = 0%nat) then inr w'
          else while_not_finished fuel' i w'
      end
  end.

(** One round of [for i in range(salesmen)]:
    [routes.append([]); next_city = 0; finished = False; while ...]. *)
Definition salesman_round (fuel : nat) (acc : stop + Walk) (i : nat) : stop + Walk :=
  match acc with
  | inl s => inl s
  | inr w =>
      while_not_finished fuel i
        {| routes := routes w ++ [[]]; next_city := 0; selected := selected w |}
  end.

(** [routes = []; for i in range(salesmen): ...] *)
Definition extract (fuel : nat) (salesmen : nat) (sel : list (nat * nat)) : stop + Walk :=
  foldl (salesman_round fuel)
        (inr {| routes := []; next_city := 0; selected := sel |})
        (range 0 salesmen).

(** ** [mtsp_solver] *)

Section Solver.

Context {Cost : Type}.

(** The objects a call works on: the caller's cost array and the objects the
    call creates. *)
Record State := mkState {
  st_cost : Matrix Cost;
  st_model : option (Model Cost);
  st_selected : list (nat * nat);
  st_routes : list (list nat) }.

(** How a call ends: with a value, with an exception, or not within the
    bound; the first two leave a state behind. *)
Inductive outcome (A : Type) :=
  | Return (a : A) (s : State)
  | Raise (e : exn) (s : State)
  | Diverge.
Arguments Return {A}.
Arguments Raise {A}.
Arguments Diverge {A}.

(** [m.optimize()]: the solution the optimiser holds when it returns, an
    assignment and its objective value, or none. *)
Variable optimize : Model Cost → option (Assignment * Cost).

(** Line 112, [m.getAttr('X', e_vars)].  Without a solution the read of a
    variable raises; the read of no variable, when [e_vars] is empty, gives
    the empty dictionary, in which nothing is ever looked up. *)
Definition read_X (m : Model Cost) (sol : option (Assignment * Cost))
    : option Assignment :=
  match sol with
  | Some (x, _) => Some x
  | None => if decide (size (_vars m) = 0%nat) then Some (λ _, 0) else None
  end.

(** The optimiser only returns assignments that satisfy the model. *)
Definition sound : Prop :=
  ∀ m x c, optimize m = Some (x, c) → feasible x m.

(** Lines 113-131 on the state: the extraction phase. *)
Definition extraction (fuel : nat) (salesmen : nat) (x : Assignment) (s : State)
    : stop + State :=
  let s1 := {| st_cost := st_cost s; st_model := st_model s;
               st_selected := select (length (st_cost s)) x;
               st_routes := [] |} in
  match extract fuel salesmen (st_selected s1) with
  | inl e => inl e
  | inr w => inr {| st_cost := st_cost s1; st_model := st_model s1;
                    st_selected := selected w; st_routes := routes w |}
  end.

Definition mtsp_solver (fuel : nat) (salesmen : nat)
    (min_cities max_cities : option Z) (output_flag time_limit : option Z)
    (s : State) : outcome (list (list nat) * Cost * Model Cost) :=
  match formulate (st_cost s) salesmen min_cities max_cities output_flag time_limit with
  | None => Raise IndexError s
  | Some m =>
      let s := {| st_cost := st_cost s; st_model := Some m;
                  st_selected := st_selected s; st_routes := st_routes s |} in
      let sol := optimize m in
      match read_X m sol with
      | None => Raise GurobiError s
      | Some x =>
          match extraction fuel salesmen x s with
          | inl (Raised e) => Raise e s
          | inl OutOfFuel => Diverge
          | inr s' =>
              (* line 133, [m.objVal] *)
              match sol with
              | Some (_, objVal) => Return (st_routes s', objVal, m) s'
              | None => Raise AttributeError s'
              end
          end
      end
  end.

(** The state in which a call on [cost] starts. *)
Definition call (cost : Matrix Cost) : State :=
  {| st_cost := cost; st_model := None; st_selected := []; st_routes := [] |}.

End Solver.

Arguments State : clear implicits.
Arguments Return {Cost A}.
Arguments Raise {Cost A}.
Arguments Diverge {Cost A}.

(** ** Arrays of numbers *)

(** An element type of the arrays the program is given: the subtraction of
    two elements, as [a - b] on arrays of that type computes it, and the
    conversion to float64.  These are the types whose norm [np.linalg.norm]
    takes in float64: float64 itself, and the integer types, which it
    converts first. *)
Record Dtype := mkDtype {
  elt : Type;
  dsub : elt → elt → elt;
  astype_float : elt → float }.

(** float64 *)
Definition float64 : Dtype :=
  {| elt := float; dsub := PrimFloat.sub; astype_float := λ t, t |}.

(** uint8, the integers 0 .. 255: the subtraction wraps around. *)
Definition uint8 : Dtype :=
  {| elt := Z;
     dsub := λ a b, (a - b) mod 256;
     astype_float := λ a, PrimFloat.of_uint63 (Uint63.of_Z a) |}.

(** int64, the integers [- 2^63 .. 2^63 - 1]: the subtraction wraps around,
    and the conversion rounds the magnitude to the nearest float. *)
Definition wrap64 (z : Z) : Z := (z + 2 ^ 63) mod 2 ^ 64 - 2 ^ 63.

Definition int64_to_float (z : Z) : float :=
  if decide (z = - 2 ^ 63) then (-9223372036854775808)%float
  else if decide (z < 0) then (- PrimFloat.of_uint63 (Uint63.of_Z (- z)))%float
  else PrimFloat.of_uint63 (Uint63.of_Z z).

Definition int64 : Dtype :=
  {| elt := Z; dsub := λ a b, wrap64 (a - b); astype_float := int64_to_float |}.

(** [x.dot(x)] on float64, the squares added up from the left (a BLAS may
    add them up in another order). *)
Definition dot (v : list float) : float :=
  foldl (λ acc t, (acc + t * t)%float) 0%float v.

(** [np.zeros((n, m))] *)
Definition zeros (n m : nat) : list (list float) := replicate n (replicate m 0%float).

(** [d[k, p]]; [None] is out of range. *)
Definition entry (d : list (list float)) (k p : nat) : option float :=
  d !! k ≫= (.!! p).

(** [d[k, p] = v] *)
Definition set_entry (d : list (list float)) (k p : nat) (v : float)
    : list (list float) :=
  alter (λ row, <[p := v]> row) k d.

(** [nodes[idx, :]]; [None] is the [IndexError] of an index that is not a
    row of [nodes]. *)
Definition rows {A} (nodes : list (list A)) (idx : list nat) : option (list (list A)) :=
  mapM (λ k, nodes !! k) idx.

(** ** [calculate_distances] (utils.py, lines 89-97) *)

Section CalculateDistances.
Variable D : Dtype.

(** [a - b] on two rows of coordinates. *)
Definition vsub (a b : list (elt D)) : list (elt D) := zip_with (dsub D) a b.

(** [np.linalg.norm] of a vector: [sqrt(x.dot(x))], on the vector converted
    to float64. *)
Definition norm (v : list (elt D)) : float :=
  PrimFloat.sqrt (dot (astype_float D <$> v)).

(** [for p in xrange(n): distances[k, p] = norm(nodes[k, :] - nodes[p, :])] *)
Definition fill_row (nodes : list (list (elt D))) (n : nat) (d : list (list float))
    (k : nat) : list (list float) :=
  foldl (λ d p, set_entry d k p (norm (vsub (nodes !!! k) (nodes !!! p)))) d (range 0 n).

Definition calculate_distances (nodes : list (list (elt D))) : list (list float) :=
  let n := length nodes in
  let distances := zeros n n in
  foldl (fill_row nodes n) distances (range 0 n).

End CalculateDistances.

(** ** The solution as the plotting functions read it (utils.py, lines
       210-222, repeated at 334-345 and 377-388) *)

(** A solution is one route or a list of routes; the code tells the two
    apart by the type of [solution[0]]. *)
Inductive Solution :=
  | OneRoute (route : list nat)
  | Routes (routes : list (list nat)).

(** [indexes = []] and then, [if len(solution) > 0],
    [indexes.extend(solution)] for a list of routes and
    [indexes.append(solution)] for one route. *)
Definition indexes (solution : Solution) : list (list nat) :=
  match solution with
  | OneRoute [] => []
  | OneRoute route => [route]
  | Routes [] => []
  | Routes routes => routes
  end.

(** ** [plot_problem_correlation_gradient] (utils.py, lines 358-401) *)

(** [route[1:len(route)-1]] *)
Definition inner_nodes {A} (route : list A) : list A :=
  take (length route - 1 - 1) (drop 1 route).

Section Gradient.
Variable D : Dtype.

(** [np.exp] and [np.log] on float64. *)
Variables np_exp np_log : float → float.

(** The nested function [cor] at one point [(x, y)] of the mesh.  [None] is
    the [IndexError] of [centre[1]] or [centre[0]]. *)
#[warnings="-inexact-float"]
Definition cor (x y : float) (centre : list (elt D)) (max_range : float)
    : option float :=
  let alpha := (- np_log 0.01 / max_range)%float in
  c1 ← centre !! 1%nat;
  c0 ← centre !! 0%nat;
  let dx := (astype_float D c1 - x)%float in
  let dy := (astype_float D c0 - y)%float in
  Some (np_exp (- alpha * PrimFloat.sqrt (dx * dx + dy * dy)))%float.

(** The value at the point [(x, y)] of the image [Z] of one route:
    [Z = cor(X, Y, route[1], max_range)] and then, for every node of
    [route[1:len(route)-1]], [Z += cor(X, Y, node, max_range)]. *)
Definition correlation_at (route : list (list (elt D))) (max_range x y : float)
    : option float :=
  centre ← route !! 1%nat;
  z ← cor x y centre max_range;
  foldl (λ acc node, z ← acc; v ← cor x y node max_range; Some (z + v)%float)
        (Some z) (inner_nodes route).

End Gradient.

(** ** [generate_grid] (utils.py, lines 403-418) *)

(** [range(a, b)] on integers. *)
Definition zrange (a b : Z) : list Z := seqZ a (b - a).

(** The sizes and coordinates are integers; [math.floor(y_size/2.0)] is then
    [y_size / 2] and [math.ceil(y_size/2.0)] is [- (- y_size / 2)].  [None]
    is the [IndexError] of [idx_start[0]] or [idx_start[1]]. *)
Definition generate_grid (x_size : Z) (y_size : option Z) (idx_start : option (list Z))
    : option (list (list Z)) :=
  let idx_start := default [0; 0] idx_start in
  let y_size := default x_size y_size in
  x0 ← idx_start !! 0%nat;
  y0 ← idx_start !! 1%nat;
  let idx_finish := [x0 + x_size + 1; y0] in
  let y_2_floor := y_size / 2 in
  let y_2_ceil := - (- y_size / 2) in
  let y_start_ceil := y0 in
  Some ([idx_start]
        ++ (i ← zrange (x0 + 1) (x0 + x_size + 1);
            j ← zrange (- y_2_floor + y_start_ceil) (y_2_ceil + y_start_ceil);
            [[i; j]])
        ++ [idx_finish]).

(** * The vocabulary of the properties *)

(** ** Degrees and walks in a list of edges *)

Definition ind (P : Prop) `{Decision P} : nat := if decide P then 1%nat else 0%nat.

(** Number of edges leaving, and entering, node [v]. *)
Definition outdeg (S : list (nat * nat)) (v : nat) : nat :=
  length (filter (λ e, e.1 = v) S).
Definition indeg (S : list (nat * nat)) (v : nat) : nat :=
  length (filter (λ e, e.2 = v) S).

(** The edges followed when route [r] is walked and then node [c] reached. *)
Definition trail (r : list nat) (c : nat) : list (nat * nat) :=
  zip r (tail r ++ [c]).

(** The edges of a route that returns to the depot. *)
Definition closed_edges (r : list nat) : list (nat * nat) := trail r 0%nat.

(** In the middle of a walk that left the depot and stands at [c], every node
    is left as often as entered, but for the two ends of the walk. *)
Definition walk_inv (c : nat) (S : list (nat * nat)) : Prop :=
  ∀ v, (outdeg S v + ind (v = 0) = indeg S v + ind (v = c))%nat.

Definition balanced (S : list (nat * nat)) : Prop :=
  ∀ v, outdeg S v = indeg S v.

(** Apart from the depot, the edges go up along a ranking of the nodes. *)
Definition ranked (rank : nat → Z) (S : list (nat * nat)) : Prop :=
  ∀ i j, (i, j) ∈ S → i ≠ 0%nat → j ≠ 0%nat → rank i < rank j.

(** No cycle of [S] avoids the depot: some ranking of the nodes goes up along
    every edge that joins two nodes other than the depot. *)
Definition no_cycle_off_depot (S : list (nat * nat)) : Prop :=
  ∃ rank : nat → Z, ranked rank S.

(** [S] is, up to order, the edge set of [k] closed walks through the depot
    that share no edge.  A walk is the list of the nodes it passes, the depot
    first; it may pass a node, the depot too, more than once. *)
Definition closed_walks (k : nat) (S : list (nat * nat)) : Prop :=
  ∃ (ws : list (list nat)),
    length ws = k
    ∧ Forall (λ w, head w = Some 0%nat) ws
    ∧ NoDup (concat (closed_edges <$> ws))
    ∧ S ≡ₚ concat (closed_edges <$> ws).

(** The same, each walk passing through the depot at its two ends only. *)
Definition closed_tours (k : nat) (S : list (nat * nat)) : Prop :=
  ∃ (ws : list (list nat)),
    length ws = k
    ∧ Forall (λ w, head w = Some 0%nat ∧ 0%nat ∉ tail w) ws
    ∧ NoDup (concat (closed_edges <$> ws))
    ∧ S ≡ₚ concat (closed_edges <$> ws).

(** ** Sums and degrees of an assignment *)

Definition sum_over (f : nat → Z) (l : list nat) : Z :=
  foldr (λ i acc, f i + acc) 0 l.

(** The degree, out and in, that the constraints give node [v]. *)
Definition degree_of (n salesmen v : nat) : nat :=
  if decide (v = 0%nat) then salesmen else if decide (v < n)%nat then 1%nat else 0%nat.

(** ** The constraints in the words of the specification *)

(** [u[i] + (L-2)*e[0,i] - e[i,0] <= L-1] *)
Definition spec_first (x : Assignment) (L : Z) (i : nat) : Prop :=
  x (u_var i) + (L - 2) * x (e_var 0 i) - x (e_var i 0) ≤ L - 1.

(** [u[i] + e[0,i] + (2-K)*e[i,0] >= 2] *)
Definition spec_last (x : Assignment) (K : Z) (i : nat) : Prop :=
  (x (u_var i) + x (e_var 0 i) + (2 - K) * x (e_var i 0) >= 2)%Z.

(** [e[0,i] + e[i,0] <= 1] *)
Definition spec_exclusive (x : Assignment) (i : nat) : Prop :=
  x (e_var 0 i) + x (e_var i 0) ≤ 1.

(** [u[i] - u[j] + L*e[i,j] + (L-2)*e[j,i] <= L-1] *)
Definition spec_order (x : Assignment) (L : Z) (i j : nat) : Prop :=
  x (u_var i) - x (u_var j) + L * x (e_var i j) + (L - 2) * x (e_var j i) ≤ L - 1.

(** The sum of [e[i,j]] over the [j] of a list. *)
Definition spec_sum_out (x : Assignment) (i : nat) (js : list nat) : Z :=
  sum_over (λ j, x (e_var i j)) js.

(** The sum of [e[j,i]] over the [j] of a list. *)
Definition spec_sum_in (x : Assignment) (i : nat) (js : list nat) : Z :=
  sum_over (λ j, x (e_var j i)) js.

(** ** Instances on which the statements are exercised *)

(** An optimiser that proposes one assignment, and returns it only when it
    satisfies the model. *)
Definition fixed_solver (x : Assignment) (objVal : Z) (m : Model Z)
    : option (Assignment * Z) :=
  if decide (feasible x m) then Some (x, objVal) else None.

(** Three nodes, one salesman: the tour 0 → 1 → 2 → 0. *)
Definition cost3 : Matrix Z := [[0; 3; 4]; [3; 0; 5]; [4; 5; 0]].

Definition tour3 : Assignment := λ v,
  match v with
  | e_var 0 1 | e_var 1 2 | e_var 2 0 => 1
  | u_var 1 => 1
  | u_var 2 => 2
  | _ => 0
  end.

(** Two nodes: an assignment that selects the edge 0 → 1 and no edge back. *)
Definition cost2 : Matrix Z := [[0; 1]; [1; 0]].

Definition cut_short2 : Assignment := λ v,
  match v with
  | e_var 0 1 => 1
  | _ => 0
  end.

(** Five nodes, two salesmen: the tours 0 → 1 → 2 → 0 and 0 → 3 → 4 → 0. *)
Definition cost5 : Matrix Z :=
  [[0; 1; 2; 1; 2]; [1; 0; 1; 2; 3]; [2; 1; 0; 3; 4]; [1; 2; 3; 0; 1]; [2; 3; 4; 1; 0]].

Definition tours5 : Assignment := λ v,
  match v with
  | e_var 0 1 | e_var 1 2 | e_var 2 0 | e_var 0 3 | e_var 3 4 | e_var 4 0 => 1
  | u_var 1 | u_var 3 => 1
  | u_var 2 | u_var 4 => 2
  | _ => 0
  end.

(** Two functions in the place of [np.exp] and [np.log], the first terms
    of their series: the statements are about every pair of functions. *)
Definition exp_series (t : float) : float := (1 + t + t * t / 2)%float.
Definition log_series (t : float) : float := ((t - 1) - (t - 1) * (t - 1) / 2)%float.

(** Five nodes in the plane, and an optimiser that returns a given
    assignment for their distance matrix when it is feasible. *)
Definition nodes5 : list (list float) :=
  [[0; 0]; [1; 0]; [2; 0]; [0; 1]; [0; 2]]%float.

Definition fixed_plane_solver (x : Assignment) (objVal : float) (m : Model float)
    : option (Assignment * float) :=
  if decide (feasible x m) then Some (x, objVal) else None.

(** * Lemmas *)

(** ** Degrees of an edge list *)

Section Degrees.
Local Open Scope nat_scope.

Global Instance outdeg_perm : Proper ((≡ₚ) ==> (=) ==> (=)) outdeg.
Proof. intros S T HST v ? <-. unfold outdeg. by rewrite HST. Qed.

Global Instance indeg_perm : Proper ((≡ₚ) ==> (=) ==> (=)) indeg.
Proof. intros S T HST v ? <-. unfold indeg. by rewrite HST. Qed.

Lemma outdeg_cons e S v : outdeg (e :: S) v = ind (e.1 = v) + outdeg S v.
Proof.
  unfold outdeg, ind. rewrite filter_cons. by destruct (decide (e.1 = v)).
Qed.

Lemma indeg_cons e S v : indeg (e :: S) v = ind (e.2 = v) + indeg S v.
Proof.
  unfold indeg, ind. rewrite filter_cons. by destruct (decide (e.2 = v)).
Qed.

Lemma outdeg_app S T v : outdeg (S ++ T) v = outdeg S v + outdeg T v.
Proof. unfold outdeg. by rewrite filter_app, length_app. Qed.

Lemma indeg_app S T v : indeg (S ++ T) v = indeg S v + indeg T v.
Proof. unfold indeg. by rewrite filter_app, length_app. Qed.

Lemma outdeg_pos S v : 0 < outdeg S v → ∃ d, (v, d) ∈ S.
Proof.
  unfold outdeg. intros H.
  destruct (filter (λ e, e.1 = v) S) as [|[a d] l] eqn:E; [simpl in H; lia|].
  assert (Hin : (a, d) ∈ filter (λ e, e.1 = v) S) by (rewrite E; left).
  apply list_elem_of_filter in Hin as [Ha Hin]. simpl in Ha. subst a. eauto.
Qed.

Lemma elem_outdeg S i j : (i, j) ∈ S → 0 < outdeg S i.
Proof.
  intros H. apply list_elem_of_split in H as (S1 & S2 & ->).
  rewrite outdeg_app, outdeg_cons. unfold ind. simpl. rewrite decide_True by done. lia.
Qed.

Lemma elem_indeg S i j : (i, j) ∈ S → 0 < indeg S j.
Proof.
  intros H. apply list_elem_of_split in H as (S1 & S2 & ->).
  rewrite indeg_app, indeg_cons. unfold ind. simpl. rewrite decide_True by done. lia.
Qed.

(** Removing the edge that is followed keeps the invariant of the walk. *)
Lemma walk_inv_step c d S S' :
  S ≡ₚ (c, d) :: S' → walk_inv c S → walk_inv d S'.
Proof.
  intros HS Hinv v. specialize (Hinv v).
  rewrite HS, outdeg_cons, indeg_cons in Hinv. simpl in Hinv.
  unfold ind in *. repeat case_decide; subst; try done; lia.
Qed.

Lemma trail_snoc r c d : trail (r ++ [c]) d = trail r c ++ [(c, d)].
Proof.
  unfold trail. destruct r as [|a r]; [done|].
  change (tail ((a :: r) ++ [c])) with (r ++ [c]).
  change (tail (a :: r)) with r.
  rewrite (zip_with_app pair (a :: r) [c] (r ++ [c]) [d]); [done|].
  rewrite length_app. simpl. lia.
Qed.

Lemma fst_trail r c : (trail r c).*1 = r.
Proof.
  unfold trail. apply fst_zip. destruct r; simpl; [lia|]. rewrite length_app. simpl. lia.
Qed.

(** A balanced, ranked set of edges that avoids the depot is empty. *)
Lemma balanced_ranked_nil rank S :
  balanced S → ranked rank S → outdeg S 0 = 0 → S = [].
Proof.
  intros Hbal Hrk H0.
  assert (Hi0 : indeg S 0 = 0) by (by rewrite <- Hbal).
  destruct S as [|e0 S0] eqn:ES; [done|]. exfalso. rewrite <- ES in *.
  assert (Hmax : ∃ e, e ∈ S ∧ ∀ e', e' ∈ S → (rank e'.2 ≤ rank e.2)%Z).
  { assert (Hne : S ≠ []) by (by rewrite ES). clear -Hne.
    induction S as [|a S IH]; [done|].
    destruct S as [|b S].
    - exists a. split; [left|]. intros e' ->%list_elem_of_singleton. lia.
    - destruct IH as (e & He & Hmax); [done|].
      destruct (decide (rank a.2 ≤ rank e.2)%Z).
      + exists e. split; [by right|]. intros e' [->|?]%elem_of_cons; auto.
      + exists a. split; [left|]. intros e' [->|He']%elem_of_cons; [lia|].
        specialize (Hmax e' He'). lia. }
  destruct Hmax as ([i j] & Hij & Hmax). simpl in Hmax.
  assert (Hj0 : j ≠ 0).
  { intros ->. apply elem_indeg in Hij. lia. }
  assert (Hout : 0 < outdeg S j).
  { rewrite Hbal. by eapply elem_indeg. }
  apply outdeg_pos in Hout as [l Hjl].
  assert (Hl0 : l ≠ 0).
  { intros ->. apply elem_indeg in Hjl. lia. }
  specialize (Hrk j l Hjl Hj0 Hl0). specialize (Hmax (j, l) Hjl). simpl in Hmax. lia.
Qed.

End Degrees.

(** ** The walk of one salesman, and of all of them *)

Section Walks.
Local Open Scope nat_scope.

(** The scan of the working list either finds no edge leaving [next_city] and
    changes nothing, or follows one such edge; it never indexes out of range. *)
Lemma scan_cases i js w :
  Forall (λ j, j < length (selected w)) js →
  (scan i js w = Some w
   ∧ ∀ j e, j ∈ js → selected w !! j = Some e → e.1 ≠ next_city w)
  ∨ (∃ j e, selected w !! j = Some e ∧ e.1 = next_city w
            ∧ scan i js w = Some (follow i j e w)).
Proof.
  induction js as [|j js IH]; intros Hjs.
  - left. split; [done|]. intros j e Hj. by apply elem_of_nil in Hj.
  - apply Forall_cons in Hjs as [Hj Hjs].
    destruct (lookup_lt_is_Some_2 _ _ Hj) as [e He].
    simpl. rewrite He. simpl.
    destruct (decide (e.1 = next_city w)) as [Heq|Hne].
    + right. by exists j, e.
    + destruct (IH Hjs) as [[Hs Hno]|Hfound]; [|by right].
      left. split; [done|].
      intros j' e' [->|Hj']%elem_of_cons He'; [congruence|]. by eapply Hno.
Qed.

Lemma scan_follows i w :
  0 < outdeg (selected w) (next_city w) →
  ∃ j d, selected w !! j = Some (next_city w, d)
         ∧ scan i (range 0 (length (selected w))) w
           = Some (follow i j (next_city w, d) w).
Proof.
  intros Hout.
  destruct (scan_cases i (range 0 (length (selected w))) w) as [[_ Hno]|Hf].
  - apply Forall_forall. intros j Hj. apply elem_of_seq in Hj. lia.
  - apply outdeg_pos in Hout as [d Hd].
    apply list_elem_of_lookup in Hd as [j Hj]. exfalso.
    apply (Hno j _) in Hj; [done|].
    apply elem_of_seq. apply lookup_lt_Some in Hj. lia.
  - destruct Hf as (j & [a d] & Hj & Ha & Hs). simpl in Ha. subst a. eauto.
Qed.

(** From a state that satisfies the invariant of the walk and has an edge to
    follow, the loop of one salesman returns to the depot within
    [length S + 1] rounds, and removes from the working list exactly the edges
    it has followed. *)
Lemma while_closes fuel : ∀ rs r c S,
  walk_inv c S → 0 < outdeg S c → length S < fuel →
  ∃ r' S',
    while_not_finished fuel (length rs)
      {| routes := rs ++ [r]; next_city := c; selected := S |}
    = inr {| routes := rs ++ [r ++ r']; next_city := 0; selected := S' |}
    ∧ head r' = Some c
    ∧ walk_inv 0 S'
    ∧ outdeg S' 0 + ind (c = 0) = outdeg S 0
    ∧ trail r c ++ S ≡ₚ closed_edges (r ++ r') ++ S'.
Proof.
  induction fuel as [|fuel IH]; intros rs r c S Hinv Hout Hlen; [lia|].
  set (w := {| routes := rs ++ [r]; next_city := c; selected := S |}).
  destruct (scan_follows (length rs) w Hout) as (j & d & Hj & Hscan).
  simpl in Hj. cbn [while_not_finished]. rewrite Hscan.
  assert (Hf : follow (length rs) j (next_city w, d) w
               = {| routes := rs ++ [r ++ [c]]; next_city := d; selected := delete j S |}).
  { unfold follow, w. simpl. f_equal.
    replace (length rs) with (length rs + 0) by lia. by rewrite alter_app_r. }
  rewrite Hf. clear Hf Hscan. simpl.
  pose proof (delete_Permutation _ _ _ Hj) as HS.
  pose proof (walk_inv_step _ _ _ _ HS Hinv) as Hinv'.
  assert (Hdeg0 : outdeg S 0 = ind (c = 0) + outdeg (delete j S) 0).
  { by rewrite HS at 1; rewrite outdeg_cons. }
  destruct (decide (d = 0)) as [->|Hd].
  - exists [c], (delete j S). repeat split; [done| |].
    + lia.
    + unfold closed_edges. rewrite trail_snoc, HS at 1.
      rewrite <- (assoc_L (++)). done.
  - destruct (IH rs (r ++ [c]) d (delete j S)) as (r' & S' & Hw & Hhd & Hi & Hdeg & Hperm).
    + done.
    + specialize (Hinv' d). unfold ind in Hinv'.
      rewrite decide_False, decide_True in Hinv' by done. lia.
    + pose proof (Permutation_length HS) as Hl. simpl in Hl. lia.
    + exists (c :: r'), S'. rewrite <- (assoc_L (++)) in Hw, Hperm.
      repeat split; [done|done| |].
      * unfold ind in Hdeg at 1. rewrite decide_False in Hdeg by done. lia.
      * rewrite <- Hperm, trail_snoc, <- (assoc_L (++)). by rewrite HS at 1.
Qed.

Lemma walk_inv_balanced S : walk_inv 0 S ↔ balanced S.
Proof.
  unfold walk_inv, balanced. split; intros H v; specialize (H v); lia.
Qed.

(** After [k] rounds of the outer loop on a balanced list with at least [k]
    edges leaving the depot. *)
Lemma extract_rounds fuel S :
  balanced S → length S < fuel →
  ∀ k, k ≤ outdeg S 0 →
  ∃ rs S',
    extract fuel k S = inr {| routes := rs; next_city := 0; selected := S' |}
    ∧ length rs = k
    ∧ Forall (λ r, head r = Some 0) rs
    ∧ balanced S'
    ∧ outdeg S' 0 + k = outdeg S 0
    ∧ concat (closed_edges <$> rs) ++ S' ≡ₚ S.
Proof.
  intros Hbal Hfuel. induction k as [|k IH]; intros Hk.
  - exists [], S. by repeat split.
  - destruct IH as (rs & S' & Hex & Hlen & Hhd & Hbal' & Hdeg & Hperm); [lia|].
    unfold extract, range in *. rewrite Nat.sub_0_r in *.
    rewrite seq_S, foldl_snoc, Hex. cbn [salesman_round routes selected]. simpl.
    rewrite <- Hlen.
    destruct (while_closes fuel rs [] 0 S') as (r' & S'' & Hw & Hr' & Hi & Hd & Hp).
    + by apply walk_inv_balanced.
    + lia.
    + apply Permutation_length in Hperm. rewrite length_app in Hperm. lia.
    + rewrite Hw. simpl. exists (rs ++ [r']), S''.
      split; [done|]. split; [rewrite length_app; simpl; lia|].
      split; [apply Forall_app; split; [done|by constructor]|].
      split; [by apply walk_inv_balanced|].
      split; [unfold ind in Hd; rewrite decide_True in Hd by done; lia|].
      rewrite fmap_app, concat_app. simpl. rewrite app_nil_r.
      rewrite <- (assoc_L (++)), <- Hp. simpl. done.
Qed.

(** The extraction on a well-formed set of selected edges: one closed route
    per salesman, every selected edge followed exactly once, and the working
    list empty at the end. *)
Lemma extract_closed_routes rank S k fuel :
  balanced S → ranked rank S → outdeg S 0 = k → length S < fuel →
  ∃ rs,
    extract fuel k S = inr {| routes := rs; next_city := 0; selected := [] |}
    ∧ length rs = k
    ∧ Forall (λ r, head r = Some 0) rs
    ∧ concat (closed_edges <$> rs) ≡ₚ S.
Proof.
  intros Hbal Hrk Hk Hfuel.
  destruct (extract_rounds fuel S Hbal Hfuel k) as (rs & S' & Hex & Hlen & Hhd & Hb & Hd & Hp);
    [lia|].
  assert (S' = []) as ->.
  { apply (balanced_ranked_nil rank); [done| |lia].
    intros i j Hij. apply Hrk. rewrite <- Hp. apply elem_of_app. by right. }
  exists rs. rewrite app_nil_r in Hp. done.
Qed.

End Walks.

(** ** The model that [formulate] builds *)

Section ModelFacts.
Context {Cost : Type}.
Implicit Types (cost : Matrix Cost) (x : Assignment).

Lemma elem_of_range a b k : k ∈ range a b ↔ (a ≤ k < b)%nat.
Proof. unfold range. rewrite elem_of_seq. lia. Qed.

Lemma NoDup_range a b : NoDup (range a b).
Proof. apply NoDup_seq. Qed.

Lemma range_0_cases n :
  (n = 0%nat ∧ range 0 n = [] ∧ range 1 n = [])
  ∨ ((0 < n)%nat ∧ range 0 n = 0%nat :: range 1 n).
Proof.
  destruct n as [|n]; [by left|]. right. split; [lia|].
  unfold range. simpl. by rewrite Nat.sub_0_r.
Qed.

Lemma elem_of_index_pairs n i j :
  (i, j) ∈ index_pairs n ↔ (i < n)%nat ∧ (j < n)%nat.
Proof.
  unfold index_pairs. rewrite list_elem_of_bind. split.
  - intros (i' & Hin & Hi'). apply list_elem_of_bind in Hin as (j' & Hin & Hj').
    apply list_elem_of_singleton in Hin. inversion Hin; subst.
    apply elem_of_range in Hi', Hj'. lia.
  - intros [Hi Hj]. exists i. split; [|apply elem_of_range; lia].
    apply list_elem_of_bind. exists j. split; [by left|apply elem_of_range; lia].
Qed.

Lemma cost_at_square cost i j :
  square cost → (i < length cost)%nat → (j < length cost)%nat →
  is_Some (cost_at cost i j).
Proof.
  intros Hsq Hi Hj. unfold cost_at.
  destruct (lookup_lt_is_Some_2 _ _ Hi) as [row Hrow]. rewrite Hrow. simpl.
  apply lookup_lt_is_Some_2.
  unfold square in Hsq. rewrite Forall_forall in Hsq.
  rewrite (Hsq row); [done|]. by eapply list_elem_of_lookup_2.
Qed.

Lemma foldl_add_e_var_None cost ps : foldl (add_e_var cost) None ps = None.
Proof. by induction ps. Qed.

(** The loop of lines 68-70 creates one binary variable for every pair it
    visits, and touches no other key. *)
Lemma foldl_add_e_var cost ps : ∀ acc ev,
  foldl (add_e_var cost) (Some acc) ps = Some ev →
  ∀ ij,
    (ij ∈ ps → ∃ c, ev !! ij = Some (mkVar 0 1 BINARY (Some c) (e_name ij.1 ij.2)))
    ∧ (ij ∉ ps → ev !! ij = acc !! ij).
Proof.
  induction ps as [|p ps IH]; intros acc ev Hfold ij.
  - simpl in Hfold. inversion Hfold; subst. split; [|done].
    intros H. by apply elem_of_nil in H.
  - simpl in Hfold.
    destruct (cost_at cost p.1 p.2) as [c|] eqn:Hc; simpl in Hfold;
      [|by rewrite foldl_add_e_var_None in Hfold].
    destruct (IH _ _ Hfold ij) as [Hin Hnot]. split.
    + intros [->|Hij]%elem_of_cons; [|by auto].
      destruct (decide (p ∈ ps)) as [Hp|Hp]; [by auto|].
      exists c. rewrite (Hnot Hp). by rewrite lookup_insert_eq.
    + intros Hij. apply not_elem_of_cons in Hij as [Hne Hij].
      rewrite (Hnot Hij). by rewrite lookup_insert_ne.
Qed.

Lemma foldl_add_e_var_total cost ps :
  (∀ ij, ij ∈ ps → is_Some (cost_at cost ij.1 ij.2)) →
  ∀ acc, is_Some (foldl (add_e_var cost) (Some acc) ps).
Proof.
  induction ps as [|p ps IH]; intros Hps acc; [by eexists|].
  simpl.
  destruct (Hps p) as [c Hc]; [left|]. rewrite Hc. simpl.
  apply IH. intros ij Hij. apply Hps. by right.
Qed.

Lemma forbid_loops_lookup (n : nat) (ev : gmap (nat * nat) (Var Cost)) (i j : nat) :
  forbid_loops n ev !! (i, j)
  = if decide (i = j ∧ (i < n)%nat) then set_ub 0 <$> ev !! (i, j) else ev !! (i, j).
Proof.
  unfold forbid_loops.
  assert (H : ∀ l (acc : gmap (nat * nat) (Var Cost)), NoDup l →
    foldl (λ acc i, alter (set_ub 0) (i, i) acc) acc l !! (i, j)
    = if decide (i = j ∧ i ∈ l) then set_ub 0 <$> acc !! (i, j) else acc !! (i, j)).
  { induction l as [|a l IH]; intros acc Hnd.
    - simpl. rewrite decide_False; [done|]. intros [_ H]. by apply elem_of_nil in H.
    - apply NoDup_cons in Hnd as [Ha Hnd]. simpl. rewrite (IH _ Hnd).
      destruct (decide (i = j ∧ i ∈ l)) as [[-> Hl]|Hl].
      + rewrite lookup_alter_ne by (intros [=]; subst; done).
        rewrite decide_True; [done|]. split; [done|by right].
      + destruct (decide ((a, a) = (i, j))) as [[= -> ->]|Hne].
        * rewrite lookup_alter_eq. rewrite decide_True; [done|]. split; [done|left].
        * rewrite lookup_alter_ne by done.
          rewrite decide_False; [done|].
          intros [-> [->|Hin]%elem_of_cons]; [done|]. by apply Hl. }
  rewrite H by apply NoDup_range.
  destruct (decide (i = j ∧ (i < n)%nat)) as [[? ?]|Hn].
  - rewrite decide_True; [done|]. split; [done|]. apply elem_of_range. lia.
  - rewrite decide_False; [done|]. intros [? Hin]. apply elem_of_range in Hin.
    apply Hn. split; [done|lia].
Qed.

Lemma create_u_vars_lookup (n : nat) (L : Z) (i : nat) :
  (i < n)%nat → create_u_vars (Cost := Cost) n L !! i = Some (mkVar 0 L INTEGER None (u_name i)).
Proof.
  unfold create_u_vars. intros Hi.
  assert (H : ∀ l (acc : gmap nat (Var Cost)), i ∈ l →
    foldl (λ acc i, <[i := mkVar 0 L INTEGER None (u_name i)]> acc) acc l !! i
    = Some (mkVar 0 L INTEGER None (u_name i))).
  { induction l as [|a l IH]; intros acc Hin; [by apply elem_of_nil in Hin|].
    simpl. destruct (decide (i ∈ l)) as [Hl|Hl]; [by apply IH|].
    apply elem_of_cons in Hin as [->|Hin]; [|done].
    clear IH. revert acc. induction l as [|b l IH]; intros acc.
    - simpl. by rewrite lookup_insert_eq.
    - simpl. apply not_elem_of_cons in Hl as [Hab Hl].
      rewrite (insert_insert_ne) by done. by apply IH. }
  apply H. apply elem_of_range. lia.
Qed.

(** The parts of a model that was built. *)
Lemma formulate_Some cost salesmen min_cities max_cities output_flag time_limit m :
  formulate cost salesmen min_cities max_cities output_flag time_limit = Some m →
  ∃ ev, create_e_vars cost (length cost) = Some ev
    ∧ _vars m = forbid_loops (length cost) ev
    ∧ _uvars m = create_u_vars (length cost) (default (Z.of_nat (length cost)) max_cities)
    ∧ constrs m = degree_constrs (length cost) salesmen
                  ++ subtour_constrs (length cost) (default 2 min_cities)
                       (default (Z.of_nat (length cost)) max_cities).
Proof.
  unfold formulate. intros H.
  destruct (create_e_vars cost (length cost)) as [ev|]; [|done].
  simpl in H. inversion H; subst; clear H. by exists ev.
Qed.

(** [e_vars] is empty exactly for the array without rows. *)
Lemma size_vars cost salesmen min_cities max_cities output_flag time_limit m :
  formulate cost salesmen min_cities max_cities output_flag time_limit = Some m →
  size (_vars m) = 0%nat ↔ cost = [].
Proof.
  intros (ev & Hev & -> & _)%formulate_Some. unfold create_e_vars in Hev. split.
  - intros Hsize%map_size_empty_inv.
    destruct cost as [|row cost]; [done|]. exfalso.
    destruct (foldl_add_e_var _ _ _ _ Hev (0%nat, 0%nat)) as [[c Hc] _].
    { apply elem_of_index_pairs. simpl. lia. }
    assert (H : forbid_loops (length (row :: cost)) ev !! (0%nat, 0%nat) = None).
    { by rewrite Hsize. }
    rewrite forbid_loops_lookup, Hc in H. by destruct (decide _).
  - intros ->. simpl in Hev. by injection Hev as <-.
Qed.

(** On a square array the model is always built. *)
Lemma formulate_square cost salesmen min_cities max_cities output_flag time_limit :
  square cost →
  is_Some (formulate cost salesmen min_cities max_cities output_flag time_limit).
Proof.
  intros Hsq. unfold formulate.
  destruct (foldl_add_e_var_total cost (index_pairs (length cost))) with (acc := (∅ : gmap (nat * nat) (Var Cost)))
    as [ev Hev].
  - intros [i j] Hij. apply elem_of_index_pairs in Hij as [Hi Hj].
    by apply cost_at_square.
  - unfold create_e_vars. rewrite Hev. simpl. by eexists.
Qed.

(** The bounds of the variables of a model that was built. *)
Lemma bounds_e cost salesmen min_cities max_cities output_flag time_limit m x i j :
  formulate cost salesmen min_cities max_cities output_flag time_limit = Some m →
  respects_bounds x m →
  (i < length cost)%nat → (j < length cost)%nat →
  0 ≤ x (e_var i j) ≤ (if decide (i = j) then 0 else 1).
Proof.
  intros Hm [Hb _] Hi Hj.
  apply formulate_Some in Hm as (ev & Hev & Hvars & _ & _).
  unfold create_e_vars in Hev.
  destruct (foldl_add_e_var _ _ _ _ Hev (i, j)) as [Hin _].
  destruct Hin as [c Hc]; [by apply elem_of_index_pairs|].
  assert (Hl : _vars m !! (i, j)
               = Some (if decide (i = j) then set_ub 0 (mkVar 0 1 BINARY (Some c) (e_name i j))
                       else mkVar 0 1 BINARY (Some c) (e_name i j))).
  { rewrite Hvars, forbid_loops_lookup, Hc. simpl.
    destruct (decide (i = j)).
    - by rewrite decide_True.
    - rewrite decide_False; [done|]. by intros [? _]. }
  apply (map_Forall_lookup_1 _ _ _ _ Hb) in Hl. simpl in Hl.
  by destruct (decide (i = j)).
Qed.

Lemma bounds_u cost salesmen min_cities max_cities output_flag time_limit m x i :
  formulate cost salesmen min_cities max_cities output_flag time_limit = Some m →
  respects_bounds x m →
  (i < length cost)%nat →
  0 ≤ x (u_var i) ≤ default (Z.of_nat (length cost)) max_cities.
Proof.
  intros Hm [_ Hb] Hi.
  apply formulate_Some in Hm as (ev & _ & _ & Hu & _).
  pose proof (create_u_vars_lookup (length cost)
    (default (Z.of_nat (length cost)) max_cities) i Hi) as Hl.
  rewrite <- Hu in Hl.
  by apply (map_Forall_lookup_1 _ _ _ _ Hb) in Hl.
Qed.

End ModelFacts.

(** ** The selected edges of a feasible assignment *)

Section SelectFacts.
Implicit Types (x : Assignment) (n i j v : nat).

Lemma eval_quicksum x (g : nat → var) l :
  eval x (quicksum (g <$> l)) = sum_over (λ i, x (g i)) l.
Proof.
  unfold quicksum, eval, sum_over. induction l as [|a l IH]; [done|].
  cbn [fmap list_fmap foldr fst snd]. rewrite <- IH.
  destruct (x (g a)); done.
Qed.

Lemma sum_over_filter_ne f i l :
  f i = 0 → sum_over f (filter (λ j, i ≠ j) l) = sum_over f l.
Proof.
  intros Hi. induction l as [|a l IH]; [done|].
  rewrite filter_cons. destruct (decide (i ≠ a)) as [Hne|Heq]; simpl.
  - by rewrite IH.
  - apply dec_stable in Heq. subst a. rewrite IH. lia.
Qed.

(** A sum of binary values counts the values that exceed one half. *)
Lemma sum_over_count f l :
  (∀ j, j ∈ l → 0 ≤ f j ≤ 1) →
  sum_over f l = Z.of_nat (length (filter (λ j, 1 < 2 * f j) l)).
Proof.
  induction l as [|a l IH]; intros Hb; [done|].
  rewrite filter_cons. simpl.
  rewrite IH by (intros j Hj; apply Hb; by right).
  specialize (Hb a (list_elem_of_here _ _)).
  destruct (decide (1 < 2 * f a)); simpl; lia.
Qed.

Lemma elem_of_select n x i j :
  (i, j) ∈ select n x ↔ (i < n)%nat ∧ (j < n)%nat ∧ 1 < 2 * x (e_var i j).
Proof.
  unfold select. rewrite list_elem_of_bind. split.
  - intros (i' & Hin & Hi'). apply list_elem_of_bind in Hin as (j' & Hin & Hj').
    apply elem_of_range in Hi', Hj'.
    destruct (decide (1 < 2 * x (e_var i' j'))); [|by apply elem_of_nil in Hin].
    apply list_elem_of_singleton in Hin. inversion Hin; subst. split_and!; [lia|lia|done].
  - intros (Hi & Hj & Hx). exists i. split; [|apply elem_of_range; lia].
    apply list_elem_of_bind. exists j. split; [|apply elem_of_range; lia].
    rewrite decide_True by done. left.
Qed.

Lemma NoDup_select n x : NoDup (select n x).
Proof.
  unfold select. apply NoDup_bind; [| |apply NoDup_range].
  - intros i1 i2 e _ _ H1 H2.
    apply list_elem_of_bind in H1 as (j1 & H1 & _), H2 as (j2 & H2 & _).
    destruct (decide _); [|by apply elem_of_nil in H1].
    destruct (decide _); [|by apply elem_of_nil in H2].
    apply list_elem_of_singleton in H1, H2. congruence.
  - intros i _. apply NoDup_bind; [| |apply NoDup_range].
    + intros j1 j2 e _ _ H1 H2.
      destruct (decide _); [|by apply elem_of_nil in H1].
      destruct (decide _); [|by apply elem_of_nil in H2].
      apply list_elem_of_singleton in H1, H2. congruence.
    + intros j _. destruct (decide _); [apply NoDup_singleton|apply NoDup_nil_2].
Qed.

(** The degrees of a node in the selected list count its selected edges. *)
Lemma outdeg_select n x v :
  (v < n)%nat →
  outdeg (select n x) v
  = length (filter (λ j, 1 < 2 * x (e_var v j)) (range 0 n)).
Proof.
  intros Hv. unfold outdeg.
  rewrite <- (length_fmap (λ j, (v, j)) (filter _ (range 0 n))).
  apply Permutation_length, NoDup_Permutation.
  - apply NoDup_filter, NoDup_select.
  - apply NoDup_fmap_2_strong; [|apply NoDup_filter, NoDup_range]. by intros ???? [=].
  - intros [i j]. rewrite list_elem_of_filter, elem_of_select, list_elem_of_fmap. simpl. split.
    + intros (-> & _ & Hj & Hx). exists j. split; [done|].
      apply list_elem_of_filter. split; [done|]. apply elem_of_range. lia.
    + intros (j' & [= -> ->] & Hin). apply list_elem_of_filter in Hin as [Hx Hin].
      apply elem_of_range in Hin. split_and!; [done|done|lia|done].
Qed.

Lemma indeg_select n x v :
  (v < n)%nat →
  indeg (select n x) v
  = length (filter (λ i, 1 < 2 * x (e_var i v)) (range 0 n)).
Proof.
  intros Hv. unfold indeg.
  rewrite <- (length_fmap (λ i, (i, v)) (filter _ (range 0 n))).
  apply Permutation_length, NoDup_Permutation.
  - apply NoDup_filter, NoDup_select.
  - apply NoDup_fmap_2_strong; [|apply NoDup_filter, NoDup_range]. by intros ???? [=].
  - intros [i j]. rewrite list_elem_of_filter, elem_of_select, list_elem_of_fmap. simpl. split.
    + intros (-> & Hi & _ & Hx). exists i. split; [done|].
      apply list_elem_of_filter. split; [done|]. apply elem_of_range. lia.
    + intros (i' & [= -> ->] & Hin). apply list_elem_of_filter in Hin as [Hx Hin].
      apply elem_of_range in Hin. split_and!; [done|lia|done|done].
Qed.

Lemma outdeg_select_ge n x v : (n ≤ v)%nat → outdeg (select n x) v = 0%nat.
Proof.
  intros Hv. destruct (outdeg (select n x) v) eqn:E; [done|]. exfalso.
  destruct (outdeg_pos (select n x) v) as [d Hd]; [lia|].
  apply elem_of_select in Hd. lia.
Qed.

Lemma indeg_select_ge n x v : (n ≤ v)%nat → indeg (select n x) v = 0%nat.
Proof.
  intros Hv. unfold indeg.
  destruct (filter (λ e, e.2 = v) (select n x)) as [|[a b] l] eqn:E; [done|]. exfalso.
  assert (Hin : (a, b) ∈ filter (λ e, e.2 = v) (select n x)) by (rewrite E; left).
  apply list_elem_of_filter in Hin as [Hb Hin]. simpl in Hb. subst b.
  apply elem_of_select in Hin. lia.
Qed.

(** Two edges leaving (or entering) a node of degree one are the same edge. *)
Lemma outdeg_one_unique S i j j' :
  outdeg S i = 1%nat → (i, j) ∈ S → (i, j') ∈ S → j = j'.
Proof.
  intros H1 Hj Hj'. destruct (decide (j = j')) as [|Hne]; [done|]. exfalso.
  apply list_elem_of_split in Hj as (S1 & S2 & ->).
  assert (Hin : (i, j') ∈ S1 ++ S2).
  { apply elem_of_app in Hj' as [?|[[=]|?]%elem_of_cons]; [|done|]; apply elem_of_app; auto. }
  apply elem_outdeg in Hin.
  rewrite outdeg_app, outdeg_cons in H1. rewrite outdeg_app in Hin.
  unfold ind in H1. simpl in H1. rewrite decide_True in H1 by done. lia.
Qed.

Lemma indeg_one_unique S i i' j :
  indeg S j = 1%nat → (i, j) ∈ S → (i', j) ∈ S → i = i'.
Proof.
  intros H1 Hi Hi'. destruct (decide (i = i')) as [|Hne]; [done|]. exfalso.
  apply list_elem_of_split in Hi as (S1 & S2 & ->).
  assert (Hin : (i', j) ∈ S1 ++ S2).
  { apply elem_of_app in Hi' as [?|[[=]|?]%elem_of_cons]; [|done|]; apply elem_of_app; auto. }
  apply elem_indeg in Hin.
  rewrite indeg_app, indeg_cons in H1. rewrite indeg_app in Hin.
  unfold ind in H1. simpl in H1. rewrite decide_True in H1 by done. lia.
Qed.

End SelectFacts.

(** ** What the constraints force on the selected edges *)

Section FeasibleFacts.
Context {Cost : Type}.
Variables (cost : Matrix Cost) (salesmen : nat).
Variables (min_cities max_cities output_flag time_limit : option Z).
Variables (m : Model Cost) (x : Assignment).
Hypothesis Hm :
  formulate cost salesmen min_cities max_cities output_flag time_limit = Some m.
Hypothesis Hx : feasible x m.

Let n := length cost.
Let K := default 2 min_cities.
Let L := default (Z.of_nat n) max_cities.

Lemma elem_of_degree_constrs c :
  c ∈ degree_constrs n salesmen ↔
    c = depot_out n salesmen ∨ c = depot_in n salesmen
    ∨ (∃ i, (1 ≤ i < n)%nat ∧ c = leave_once n i)
    ∨ (∃ i, (1 ≤ i < n)%nat ∧ c = enter_once n i).
Proof.
  unfold degree_constrs.
  rewrite !elem_of_app, !elem_of_cons, !list_elem_of_fmap, elem_of_nil. split.
  - intros [[->|[->|[]]]|[(i & -> & Hi%elem_of_range)|(i & -> & Hi%elem_of_range)]];
      eauto 6.
  - intros [->|[->|[(i & Hi%elem_of_range & ->)|(i & Hi%elem_of_range & ->)]]];
      eauto 8.
Qed.

Lemma elem_of_subtour_constrs c :
  c ∈ subtour_constrs n K L ↔
    (∃ i, (1 ≤ i < n)%nat ∧ c = first_bound L i)
    ∨ (∃ i, (1 ≤ i < n)%nat ∧ c = last_bound K i)
    ∨ (∃ i, (1 ≤ i < n)%nat ∧ c = not_both i)
    ∨ (∃ i j, (1 ≤ i < n)%nat ∧ (1 ≤ j < n)%nat ∧ i ≠ j ∧ c = order_pair L i j).
Proof.
  unfold subtour_constrs.
  rewrite !elem_of_app, !list_elem_of_fmap, list_elem_of_bind. split.
  - intros [(i & -> & Hi%elem_of_range)|[(i & -> & Hi%elem_of_range)|
             [(i & -> & Hi%elem_of_range)|(i & Hc & Hi%elem_of_range)]]]; eauto 6.
    apply list_elem_of_bind in Hc as (j & Hc & Hj%elem_of_range).
    destruct (decide (i ≠ j)); [|by apply elem_of_nil in Hc].
    apply list_elem_of_singleton in Hc. right; right; right. by exists i, j.
  - intros [(i & Hi%elem_of_range & ->)|[(i & Hi%elem_of_range & ->)|
             [(i & Hi%elem_of_range & ->)|(i & j & Hi & Hj & Hne & ->)]]]; eauto 8.
    right; right; right. exists i. split; [|by apply elem_of_range].
    apply list_elem_of_bind. exists j. split; [|by apply elem_of_range].
    rewrite decide_True by done. left.
Qed.

Lemma holds_degree c : c ∈ degree_constrs n salesmen → holds x c.
Proof.
  intros Hc. destruct Hx as [_ Hall].
  apply formulate_Some in Hm as (ev & _ & _ & _ & Hcs).
  rewrite Hcs, Forall_forall in Hall. apply Hall, elem_of_app. by left.
Qed.

Lemma holds_subtour c : c ∈ subtour_constrs n K L → holds x c.
Proof.
  intros Hc. destruct Hx as [_ Hall].
  apply formulate_Some in Hm as (ev & _ & _ & _ & Hcs).
  rewrite Hcs, Forall_forall in Hall. apply Hall, elem_of_app. by right.
Qed.

Lemma e_bounds i j :
  (i < n)%nat → (j < n)%nat → 0 ≤ x (e_var i j) ≤ (if decide (i = j) then 0 else 1).
Proof. destruct Hx as [Hb _]. by eapply bounds_e. Qed.

Lemma e_binary i j : (i < n)%nat → (j < n)%nat → 0 ≤ x (e_var i j) ≤ 1.
Proof. intros Hi Hj. pose proof (e_bounds i j Hi Hj). destruct (decide (i = j)); lia. Qed.

Lemma e_loop i : (i < n)%nat → x (e_var i i) = 0.
Proof. intros Hi. pose proof (e_bounds i i Hi Hi). rewrite decide_True in H by done. lia. Qed.

Lemma u_bounds i : (i < n)%nat → 0 ≤ x (u_var i) ≤ L.
Proof. destruct Hx as [Hb _]. by eapply bounds_u. Qed.

(** The sums of the degree constraints, over all of [range(n)]. *)
Lemma row_sum i :
  (1 ≤ i < n)%nat → sum_over (λ j, x (e_var i j)) (range 0 n) = 1.
Proof.
  intros Hi.
  assert (Hc : holds x (leave_once n i)).
  { apply holds_degree, elem_of_degree_constrs. right; right; left. by exists i. }
  unfold holds, leave_once in Hc. simpl in Hc.
  rewrite eval_quicksum in Hc. rewrite <- Hc.
  symmetry. apply (sum_over_filter_ne (λ j, x (e_var i j))). apply e_loop. lia.
Qed.

Lemma column_sum i :
  (1 ≤ i < n)%nat → sum_over (λ j, x (e_var j i)) (range 0 n) = 1.
Proof.
  intros Hi.
  assert (Hc : holds x (enter_once n i)).
  { apply holds_degree, elem_of_degree_constrs. right; right; right. by exists i. }
  unfold holds, enter_once in Hc. simpl in Hc.
  rewrite eval_quicksum in Hc. rewrite <- Hc.
  symmetry. apply (sum_over_filter_ne (λ j, x (e_var j i))). apply e_loop. lia.
Qed.

Lemma depot_row_sum :
  sum_over (λ j, x (e_var 0 j)) (range 0 n) = Z.of_nat salesmen.
Proof.
  assert (Hc : holds x (depot_out n salesmen)).
  { apply holds_degree, elem_of_degree_constrs. by left. }
  unfold holds, depot_out in Hc. simpl in Hc.
  rewrite eval_quicksum in Hc. rewrite <- Hc.
  destruct (range_0_cases n) as [(Hn & -> & ->)|(Hn & ->)]; [done|].
  simpl. rewrite e_loop by lia. done.
Qed.

Lemma depot_column_sum :
  sum_over (λ j, x (e_var j 0)) (range 0 n) = Z.of_nat salesmen.
Proof.
  assert (Hc : holds x (depot_in n salesmen)).
  { apply holds_degree, elem_of_degree_constrs. right. by left. }
  unfold holds, depot_in in Hc. simpl in Hc.
  rewrite eval_quicksum in Hc. rewrite <- Hc.
  destruct (range_0_cases n) as [(Hn & -> & ->)|(Hn & ->)]; [done|].
  simpl. rewrite e_loop by lia. done.
Qed.

(** The degrees of every node in the list of selected edges. *)
Lemma feasible_outdeg v : outdeg (select n x) v = degree_of n salesmen v.
Proof.
  unfold degree_of. destruct (decide (v < n)%nat) as [Hv|Hv].
  - rewrite outdeg_select by done. apply Nat2Z.inj.
    rewrite <- (sum_over_count (λ j, x (e_var v j)))
      by (intros j Hj; apply elem_of_range in Hj; apply e_binary; lia).
    destruct (decide (v = 0%nat)) as [->|Hv0]; [apply depot_row_sum|].
    apply row_sum. lia.
  - rewrite outdeg_select_ge by lia.
    destruct (decide (v = 0%nat)) as [->|Hv0]; [|done].
    pose proof depot_row_sum as Hs.
    destruct (range_0_cases n) as [(_ & Hr & _)|(Hn & _)]; [|lia].
    rewrite Hr in Hs. simpl in Hs. lia.
Qed.

Lemma feasible_indeg v : indeg (select n x) v = degree_of n salesmen v.
Proof.
  unfold degree_of. destruct (decide (v < n)%nat) as [Hv|Hv].
  - rewrite indeg_select by done. apply Nat2Z.inj.
    rewrite <- (sum_over_count (λ j, x (e_var j v)))
      by (intros j Hj; apply elem_of_range in Hj; apply e_binary; lia).
    destruct (decide (v = 0%nat)) as [->|Hv0]; [apply depot_column_sum|].
    apply column_sum. lia.
  - rewrite indeg_select_ge by lia.
    destruct (decide (v = 0%nat)) as [->|Hv0]; [|done].
    pose proof depot_column_sum as Hs.
    destruct (range_0_cases n) as [(_ & Hr & _)|(Hn & _)]; [|lia].
    rewrite Hr in Hs. simpl in Hs. lia.
Qed.

Lemma feasible_balanced : balanced (select n x).
Proof. intros v. by rewrite feasible_outdeg, feasible_indeg. Qed.

(** A selected edge has the value one, an edge that was not selected zero. *)
Lemma selected_one i j : (i, j) ∈ select n x → x (e_var i j) = 1.
Proof.
  intros (Hi & Hj & Hv)%elem_of_select. pose proof (e_binary i j Hi Hj). lia.
Qed.

Lemma not_selected_zero i j :
  (i < n)%nat → (j < n)%nat → (i, j) ∉ select n x → x (e_var i j) = 0.
Proof.
  intros Hi Hj Hno. pose proof (e_binary i j Hi Hj).
  destruct (decide (1 < 2 * x (e_var i j))) as [Hs|Hs]; [|lia].
  exfalso. apply Hno, elem_of_select. done.
Qed.

(** Along a selected edge between two nodes other than the depot, the value
    of [u] goes up: no selected cycle avoids the depot. *)
Lemma feasible_ranked : ranked (λ i, x (u_var i)) (select n x).
Proof.
  intros i j Hij Hi0 Hj0.
  pose proof (selected_one i j Hij) as Heij.
  pose proof Hij as (Hi & Hj & _)%elem_of_select.
  assert (Hne : i ≠ j).
  { intros ->. rewrite e_loop in Heij by done. lia. }
  assert (Hc : holds x (order_pair L i j)).
  { apply holds_subtour, elem_of_subtour_constrs. right; right; right.
    exists i, j. split_and!; first [lia|done]. }
  unfold holds, order_pair, eval in Hc. simpl in Hc. rewrite Heij in Hc.
  destruct (decide ((j, i) ∈ select n x)) as [Hji|Hji].
  - exfalso. pose proof (selected_one j i Hji) as Heji.
    assert (Hc' : holds x (order_pair L j i)).
    { apply holds_subtour, elem_of_subtour_constrs. right; right; right.
      exists j, i. split_and!; first [lia|done]. }
    unfold holds, order_pair, eval in Hc'. simpl in Hc'.
    rewrite Heji in Hc. rewrite Heij, Heji in Hc'.
    assert (Hi0' : x (e_var i 0) = 0).
    { apply not_selected_zero; [done|lia|]. intros Hi0'.
      apply Hj0. apply (outdeg_one_unique (select n x) i j 0); [|done|done].
      rewrite feasible_outdeg. unfold degree_of.
      rewrite decide_False, decide_True by done. done. }
    assert (H0i : x (e_var 0 i) = 0).
    { apply not_selected_zero; [lia|done|]. intros H0i.
      apply Hj0. apply (indeg_one_unique (select n x) j 0 i); [|done|done].
      rewrite feasible_indeg. unfold degree_of.
      rewrite decide_False, decide_True by done. done. }
    assert (Hlast : holds x (last_bound K i)).
    { apply holds_subtour, elem_of_subtour_constrs. right; left.
      exists i. split; [lia|done]. }
    unfold holds, last_bound, eval in Hlast. simpl in Hlast.
    rewrite Hi0', H0i in Hlast.
    pose proof (u_bounds i Hi). lia.
  - rewrite (not_selected_zero j i) in Hc by done. lia.
Qed.

(** The sources of the selected edges, in the order of the list: the depot
    once per salesman, then every other node once. *)
Lemma fst_row (l : list nat) (i : nat) (P : nat → Prop) `{∀ j, Decision (P j)} :
  (l ≫= (λ j, if decide (P j) then [(i, j)] else [])).*1
  = replicate (length (filter P l)) i.
Proof.
  induction l as [|a l IH]; [done|].
  csimpl. rewrite fmap_app, IH, filter_cons.
  by destruct (decide (P a)).
Qed.

Lemma fst_select_rows l :
  Forall (λ i, (i < n)%nat) l →
  (l ≫= (λ i, range 0 n ≫= (λ j,
      if decide (1 < 2 * x (e_var i j)) then [(i, j)] else []))).*1
  = l ≫= (λ i, replicate (outdeg (select n x) i) i).
Proof.
  induction l as [|a l IH]; intros Hl; [done|].
  apply Forall_cons in Hl as [Ha Hl].
  csimpl. rewrite fmap_app, (IH Hl).
  rewrite (fst_row (range 0 n) a (λ j, 1 < 2 * x (e_var a j))).
  by rewrite <- outdeg_select.
Qed.

Lemma bind_replicate_one (f : nat → nat) l :
  (∀ i, i ∈ l → f i = 1%nat) → l ≫= (λ i, replicate (f i) i) = l.
Proof.
  induction l as [|a l IH]; intros Hf; [done|].
  csimpl. rewrite (Hf a) by left. simpl. f_equal.
  apply IH. intros i Hi. apply Hf. by right.
Qed.

Lemma feasible_fst : (select n x).*1 = replicate salesmen 0%nat ++ range 1 n.
Proof.
  unfold select. rewrite fst_select_rows
    by (apply Forall_forall; intros i Hi%elem_of_range; lia).
  pose proof (feasible_outdeg 0) as H0. unfold degree_of in H0.
  rewrite decide_True in H0 by done.
  destruct (range_0_cases n) as [(Hn & -> & ->)|(Hn & ->)].
  - rewrite outdeg_select_ge in H0 by lia. by rewrite <- H0.
  - csimpl. rewrite H0. f_equal.
    apply bind_replicate_one. intros i Hi%elem_of_range.
    rewrite feasible_outdeg. unfold degree_of.
    rewrite decide_False by lia. by rewrite decide_True by lia.
Qed.

End FeasibleFacts.

(** ** Routes of a feasible assignment *)

Section Routes.
Context {Cost : Type}.
Variable optimize : Model Cost → option (Assignment * Cost).

Lemma fst_closed_edges rs : (concat (closed_edges <$> rs)).*1 = concat rs.
Proof.
  induction rs as [|r rs IH]; [done|].
  csimpl. rewrite fmap_app, IH. unfold closed_edges. by rewrite fst_trail.
Qed.

Lemma elem_of_closed_edges rs r e :
  r ∈ rs → e ∈ closed_edges r → e ∈ concat (closed_edges <$> rs).
Proof.
  intros Hr He. apply list_elem_of_split in Hr as (rs1 & rs2 & ->).
  rewrite fmap_app, concat_app. apply elem_of_app. right.
  rewrite fmap_cons. simpl. apply elem_of_app. by left.
Qed.

Lemma closed_edges_last r0 v : closed_edges (r0 ++ [v]) = trail r0 v ++ [(v, 0%nat)].
Proof. apply trail_snoc. Qed.

Lemma concat_heads (rs : list (list nat)) :
  Forall (λ r, head r = Some 0%nat) rs →
  concat rs ≡ₚ replicate (length rs) 0%nat ++ concat (tail <$> rs).
Proof.
  induction rs as [|r rs IH]; intros Hrs; [done|].
  apply Forall_cons in Hrs as [Hr Hrs].
  destruct r as [|a r]; [done|]. simpl in Hr. inversion Hr; subst a.
  csimpl. rewrite (IH Hrs). f_equal.
  rewrite (assoc_L (++)), (comm (++) r), <- (assoc_L (++)). done.
Qed.

(** A call whose optimiser returns a feasible assignment ends, and returns
    one closed route per salesman; together the routes follow every selected
    edge once and list every node but the depot once. *)
Lemma mtsp_solver_feasible (cost : Matrix Cost) salesmen min_cities max_cities
    output_flag time_limit (m : Model Cost) x objVal fuel :
  formulate cost salesmen min_cities max_cities output_flag time_limit = Some m →
  optimize m = Some (x, objVal) →
  feasible x m →
  (length (select (length cost) x) < fuel)%nat →
  ∃ rs,
    mtsp_solver optimize fuel salesmen min_cities max_cities output_flag time_limit
      (call cost)
    = Return (rs, objVal, m)
        {| st_cost := cost; st_model := Some m; st_selected := []; st_routes := rs |}
    ∧ length rs = salesmen
    ∧ Forall (λ r, head r = Some 0%nat) rs
    ∧ concat (closed_edges <$> rs) ≡ₚ select (length cost) x
    ∧ concat rs ≡ₚ replicate salesmen 0%nat ++ range 1 (length cost).
Proof.
  intros Hm Hopt Hx Hfuel.
  destruct (extract_closed_routes (λ i, x (u_var i)) (select (length cost) x)
              salesmen fuel) as (rs & Hex & Hlen & Hhd & Hperm).
  - by eapply feasible_balanced.
  - by eapply feasible_ranked.
  - erewrite feasible_outdeg by done. unfold degree_of. by rewrite decide_True.
  - done.
  - exists rs. split_and!; [|done|done|done|].
    + unfold mtsp_solver, call, extraction. simpl. rewrite Hm, Hopt. simpl.
      by rewrite Hex.
    + rewrite <- fst_closed_edges, Hperm. by erewrite feasible_fst.
Qed.

Lemma length_select_feasible (cost : Matrix Cost) salesmen min_cities max_cities
    output_flag time_limit (m : Model Cost) x :
  formulate cost salesmen min_cities max_cities output_flag time_limit = Some m →
  feasible x m →
  length (select (length cost) x) = (salesmen + (length cost - 1))%nat.
Proof.
  intros Hm Hx. rewrite <- (length_fmap fst).
  erewrite feasible_fst by done.
  rewrite length_app, length_replicate. unfold range. by rewrite length_seq.
Qed.

End Routes.

(** ** Edge sets made of closed walks *)

Section ClosedWalks.
Local Open Scope nat_scope.

Lemma outdeg_fst S v : outdeg S v = length (filter (λ a, a = v) S.*1).
Proof.
  unfold outdeg. induction S as [|e S IH]; [done|].
  rewrite fmap_cons, !filter_cons. destruct (decide (e.1 = v)); simpl; by rewrite IH.
Qed.

Lemma indeg_snd S v : indeg S v = length (filter (λ a, a = v) S.*2).
Proof.
  unfold indeg. induction S as [|e S IH]; [done|].
  rewrite fmap_cons, !filter_cons. destruct (decide (e.2 = v)); simpl; by rewrite IH.
Qed.

Lemma snd_trail r c : r ≠ [] → (trail r c).*2 = tail r ++ [c].
Proof.
  intros Hr. unfold trail. apply snd_zip.
  destruct r; [done|]. simpl. rewrite length_app. simpl. lia.
Qed.

Section Given.
Variables (k : nat) (ws : list (list nat)) (S : list (nat * nat)).
Hypothesis Hk : length ws = k.
Hypothesis Hhd : Forall (λ w, head w = Some 0) ws.
Hypothesis HS : S ≡ₚ concat (closed_edges <$> ws).

(** The nodes left and the nodes entered are the nodes of the walks. *)
Lemma closed_walks_fst : S.*1 ≡ₚ concat ws.
Proof. by rewrite HS, fst_closed_edges. Qed.

Lemma closed_walks_snd : S.*2 ≡ₚ concat ws.
Proof.
  rewrite HS. clear HS Hk. induction ws as [|w l IH]; [done|].
  apply Forall_cons in Hhd as [Hw Hl].
  csimpl. rewrite fmap_app, (IH Hl). unfold closed_edges.
  destruct w as [|a w]; [done|]. injection Hw as ->.
  rewrite snd_trail by done. simpl. solve_Permutation.
Qed.

Lemma closed_walks_balanced : balanced S.
Proof.
  intros v. by rewrite outdeg_fst, indeg_snd, closed_walks_fst, closed_walks_snd.
Qed.

(** Walks that pass through the depot at their ends only leave it once each. *)
Lemma closed_tours_depot : Forall (λ w, 0 ∉ tail w) ws → outdeg S 0 = k.
Proof.
  intros Htl. rewrite outdeg_fst, closed_walks_fst, <- Hk.
  clear HS Hk. induction ws as [|w l IH]; [done|].
  apply Forall_cons in Hhd as [Hw Hl]. apply Forall_cons in Htl as [Ht Htl].
  destruct w as [|a w]; [done|]. injection Hw as ->. simpl in Ht.
  csimpl. rewrite filter_app, length_app, (IH Hl Htl).
  assert (filter (λ a, a = 0) w = []) as ->; [|done].
  destruct (filter (λ a, a = 0) w) as [|a l'] eqn:E; [done|].
  assert (Ha : a ∈ filter (λ a, a = 0) w) by (rewrite E; left).
  by apply list_elem_of_filter in Ha as [-> Ha].
Qed.

End Given.
End ClosedWalks.

(** ** The depot alone *)

Section DepotOnly.
Context {Cost : Type}.
Variable optimize : Model Cost → option (Assignment * Cost).

Lemma square_singleton (c : Cost) : square [[c]].
Proof. by repeat constructor. Qed.

(** On a [1 × 1] cost matrix the two constraints of the depot read
    [0 = salesmen]. *)
Lemma depot_only_infeasible (c : Cost) (salesmen : nat)
    (min_cities max_cities output_flag time_limit : option Z) (m : Model Cost) x :
  (1 ≤ salesmen)%nat →
  formulate [[c]] salesmen min_cities max_cities output_flag time_limit = Some m →
  ¬ feasible x m.
Proof.
  intros Hk Hm [_ Hall].
  apply formulate_Some in Hm as (_ & _ & _ & _ & Hcs).
  rewrite Hcs in Hall. simpl in Hall.
  apply Forall_cons in Hall as [Hc _].
  unfold holds, depot_out in Hc. simpl in Hc. unfold eval in Hc. simpl in Hc. lia.
Qed.

Lemma depot_only_raises (c : Cost) (salesmen : nat)
    (min_cities max_cities output_flag time_limit : option Z) (fuel : nat) :
  sound optimize →
  (1 ≤ salesmen)%nat →
  ∃ m,
    formulate [[c]] salesmen min_cities max_cities output_flag time_limit = Some m
    ∧ (∀ x, ¬ feasible x m)
    ∧ mtsp_solver optimize fuel salesmen min_cities max_cities output_flag time_limit
        (call [[c]])
      = Raise GurobiError
          {| st_cost := [[c]]; st_model := Some m; st_selected := []; st_routes := [] |}.
Proof.
  intros Hsound Hk.
  destruct (formulate_square [[c]] salesmen min_cities max_cities output_flag time_limit
              (square_singleton c)) as [m Hm].
  exists m. split; [done|].
  assert (Hinf : ∀ x, ¬ feasible x m).
  { intros x. by eapply depot_only_infeasible. }
  split; [done|].
  unfold mtsp_solver, call. cbn [st_cost st_model st_selected st_routes]. rewrite Hm.
  destruct (optimize m) as [[x objVal]|] eqn:Hopt.
  - exfalso. apply (Hinf x). by eapply Hsound.
  - unfold read_X. rewrite decide_False; [done|].
    by intros ?%(size_vars _ _ _ _ _ _ _ Hm).
Qed.

End DepotOnly.

(** ** The matrix of distances *)

Section Distances.

Lemma entry_set_entry_eq d k p v :
  is_Some (entry d k p) → entry (set_entry d k p v) k p = Some v.
Proof.
  unfold entry, set_entry. intros [w Hw]. rewrite list_lookup_alter_eq.
  destruct (d !! k) as [row|]; [|done]. simpl in *.
  apply list_lookup_insert_eq. by eapply lookup_lt_Some.
Qed.

Lemma entry_set_entry_ne d k p v k' p' :
  (k, p) ≠ (k', p') → entry (set_entry d k p v) k' p' = entry d k' p'.
Proof.
  unfold entry, set_entry. intros Hne.
  destruct (decide (k = k')) as [<-|Hk].
  - rewrite list_lookup_alter_eq. destruct (d !! k) as [row|]; [|done]. simpl.
    apply list_lookup_insert_ne. congruence.
  - by rewrite list_lookup_alter_ne.
Qed.

(** A loop that writes [f p] at [(k, p)] for every [p] of [ps]. *)
Lemma entry_foldl_row (f : nat → float) k ps : ∀ d k' p',
  (∀ p, p ∈ ps → is_Some (entry d k p)) →
  entry (foldl (λ d p, set_entry d k p (f p)) d ps) k' p'
  = if decide (k' = k ∧ p' ∈ ps) then Some (f p') else entry d k' p'.
Proof.
  induction ps as [|a ps IH]; intros d k' p' Hd.
  - cbn [foldl]. rewrite decide_False; [done|]. intros [_ H]. by apply elem_of_nil in H.
  - cbn [foldl]. rewrite IH.
    + destruct (decide (k' = k ∧ p' ∈ ps)) as [[-> Hin]|Hn].
      * rewrite decide_True; [done|]. split; [done|by right].
      * destruct (decide ((k, a) = (k', p'))) as [[= <- <-]|Hne].
        -- rewrite entry_set_entry_eq by (apply Hd; left).
           rewrite decide_True; [done|]. split; [done|left].
        -- rewrite entry_set_entry_ne by done.
           rewrite decide_False; [done|].
           intros [-> [->|Hin]%elem_of_cons]; [done|]. by apply Hn.
    + intros p Hp. destruct (decide ((k, a) = (k, p))) as [[= <-]|Hne].
      * rewrite entry_set_entry_eq; [done|]. apply Hd. left.
      * rewrite entry_set_entry_ne by done. apply Hd. by right.
Qed.

(** The two nested loops write [f k p] at [(k, p)] for every [k] of [ks] and
    every [p] of [ps]. *)
Lemma entry_foldl_rows (f : nat → nat → float) ps ks : ∀ d k' p',
  (∀ k p, k ∈ ks → p ∈ ps → is_Some (entry d k p)) →
  entry (foldl (λ d k, foldl (λ d p, set_entry d k p (f k p)) d ps) d ks) k' p'
  = if decide (k' ∈ ks ∧ p' ∈ ps) then Some (f k' p') else entry d k' p'.
Proof.
  induction ks as [|a ks IH]; intros d k' p' Hd.
  - cbn [foldl]. rewrite decide_False; [done|]. intros [H _]. by apply elem_of_nil in H.
  - cbn [foldl]. rewrite IH.
    + rewrite (entry_foldl_row (f a)) by (intros p Hp; apply Hd; [left|done]).
      destruct (decide (k' ∈ ks ∧ p' ∈ ps)) as [[Hk Hp]|Hn].
      * rewrite decide_True; [done|]. split; [by right|done].
      * destruct (decide (k' = a ∧ p' ∈ ps)) as [[-> Hp]|Hn'].
        -- rewrite decide_True; [done|]. split; [left|done].
        -- rewrite decide_False; [done|].
           intros [[->|Hk]%elem_of_cons Hp]; [by apply Hn'|by apply Hn].
    + intros k p Hk Hp.
      rewrite (entry_foldl_row (f a)) by (intros q Hq; apply Hd; [left|done]).
      destruct (decide _); [done|]. apply Hd; [by right|done].
Qed.

Lemma entry_zeros n m k p :
  (k < n)%nat → (p < m)%nat → entry (zeros n m) k p = Some 0%float.
Proof.
  intros Hk Hp. unfold entry, zeros.
  rewrite lookup_replicate_2 by done. simpl. by rewrite lookup_replicate_2.
Qed.

Lemma entry_calculate_distances D (nodes : list (list (elt D))) k p :
  (k < length nodes)%nat → (p < length nodes)%nat →
  entry (calculate_distances D nodes) k p
  = Some (norm D (vsub D (nodes !!! k) (nodes !!! p))).
Proof.
  intros Hk Hp. unfold calculate_distances, fill_row.
  rewrite (entry_foldl_rows (λ k p, norm D (vsub D (nodes !!! k) (nodes !!! p)))).
  - rewrite decide_True; [done|]. split; apply elem_of_range; lia.
  - intros k0 p0 Hk0%elem_of_range Hp0%elem_of_range.
    rewrite entry_zeros by lia. done.
Qed.

Lemma length_set_entry d k p v : length (set_entry d k p v) = length d.
Proof. unfold set_entry. apply length_alter. Qed.

Lemma row_lengths_set_entry n d k p v :
  Forall (λ row, length row = n) d → Forall (λ row, length row = n) (set_entry d k p v).
Proof.
  unfold set_entry. intros Hd. apply Forall_alter; [done|].
  intros row _ Hrow. by rewrite length_insert.
Qed.

Lemma shape_calculate_distances D (nodes : list (list (elt D))) :
  length (calculate_distances D nodes) = length nodes
  ∧ Forall (λ row, length row = length nodes) (calculate_distances D nodes).
Proof.
  unfold calculate_distances, fill_row.
  assert (H : ∀ n ps ks (d : list (list float)),
    length d = n ∧ Forall (λ row, length row = n) d →
    let d' := foldl (λ d k, foldl (λ d p,
                set_entry d k p (norm D (vsub D (nodes !!! k) (nodes !!! p)))) d ps) d ks in
    length d' = n ∧ Forall (λ row, length row = n) d').
  { intros n ps ks. induction ks as [|a ks IH]; intros d Hd; [done|].
    simpl. apply IH. clear IH. revert d Hd.
    induction ps as [|b ps IH]; intros d [Hl Hr]; [done|].
    simpl. apply IH. split; [by rewrite length_set_entry|by apply row_lengths_set_entry]. }
  apply H. unfold zeros. split; [by rewrite length_replicate|].
  apply Forall_replicate. by rewrite length_replicate.
Qed.


End Distances.

(** ** Subtraction and squares in binary64 *)

Section BinaryFloats.
Variables prec emax : Z.

Lemma SFmul_opp_opp x : SFmul prec emax (SFopp x) (SFopp x) = SFmul prec emax x x.
Proof. destruct x as [[]|[]| |[] m e]; reflexivity. Qed.

(** The sign takes no part in the rounding. *)
Lemma binary_round_opp m e :
  binary_round prec emax true m e = SFopp (binary_round prec emax false m e).
Proof.
  unfold binary_round. destruct (shl_align _ _ _) as [mz ez].
  unfold binary_round_aux.
  destruct (shr_fexp _ _ _ _ _) as [mrs' e'].
  destruct (shr_fexp _ _ _ _ _) as [mrs'' e''].
  destruct (shr_m mrs''); [done| |done].
  by destruct (Z.leb _ _).
Qed.

Lemma binary_normalize_opp m e :
  binary_normalize prec emax (- m) e false = binary_normalize prec emax m e false
  ∨ binary_normalize prec emax (- m) e false
    = SFopp (binary_normalize prec emax m e false).
Proof.
  destruct m as [|m|m]; simpl.
  - by left.
  - right. apply binary_round_opp.
  - right. rewrite binary_round_opp.
    by destruct (binary_round _ _ _ _ _) as [[]|[]| |[] ? ?].
Qed.

(** [y - x] is [x - y] or its opposite. *)
Lemma SFsub_swap x y :
  SFsub prec emax y x = SFsub prec emax x y
  ∨ SFsub prec emax y x = SFopp (SFsub prec emax x y).
Proof.
  destruct x as [sx|sx| |sx mx ex], y as [sy|sy| |sy my ey]; simpl;
    try (by left); try (by right);
    try (destruct sx, sy; simpl; auto; fail);
    try (destruct sx; simpl; auto; fail);
    try (destruct sy; simpl; auto; fail).
  rewrite (Z.min_comm ey ex).
  match goal with |- context [binary_normalize _ _ (?a - ?b) _ _] =>
    replace (a - b) with (- (b - a)) by lia end.
  apply binary_normalize_opp.
Qed.

Lemma SFsub_sq x y :
  SFmul prec emax (SFsub prec emax x y) (SFsub prec emax x y)
  = SFmul prec emax (SFsub prec emax y x) (SFsub prec emax y x).
Proof.
  destruct (SFsub_swap x y) as [->| ->]; [done|]. by rewrite SFmul_opp_opp.
Qed.

Lemma SFsub_diag x :
  match x with S754_zero _ | S754_finite _ _ _ => True | _ => False end →
  SFsub prec emax x x = S754_zero false.
Proof.
  destruct x as [[]|[]| |s m e]; simpl; try done. intros _.
  by rewrite Z.sub_diag.
Qed.

End BinaryFloats.

Section Floats.
Local Open Scope float_scope.

Lemma sub_sq (a b : float) : (a - b) * (a - b) = (b - a) * (b - a).
Proof. apply Prim2SF_inj. rewrite !mul_spec, !sub_spec. apply SFsub_sq. Qed.

Lemma opp_sq (a : float) : (- a) * (- a) = a * a.
Proof. apply Prim2SF_inj. rewrite !mul_spec, !opp_spec. apply SFmul_opp_opp. Qed.

Lemma is_finite_spec (a : float) :
  is_finite a = true →
  match Prim2SF a with S754_zero _ | S754_finite _ _ _ => True | _ => False end.
Proof.
  unfold is_finite, is_nan, is_infinity. rewrite !FloatAxioms.eqb_spec, abs_spec.
  destruct (Prim2SF a) as [s|[]| |s m e]; intros H; try exact I; by vm_compute in H.
Qed.

Lemma sub_diag (a : float) : is_finite a = true → a - a = 0.
Proof.
  intros H. apply Prim2SF_inj. rewrite sub_spec. unfold SF64sub.
  by rewrite (SFsub_diag _ _ _ (is_finite_spec a H)).
Qed.

(** The dot product of a vector with itself reads the squares only. *)
Lemma dot_squares (v w : list float) :
  Forall2 (λ s t, s * s = t * t) v w → dot v = dot w.
Proof.
  unfold dot. generalize 0. intros acc H. revert acc.
  induction H as [|s t v w Hst _ IH]; intros acc; [done|].
  cbn [foldl]. rewrite Hst. apply IH.
Qed.

Lemma dot_zeros (n : nat) : dot (replicate n 0) = 0.
Proof.
  unfold dot. induction n as [|n IH]; [done|]. cbn [replicate foldl].
  exact IH.
Qed.

Lemma norm_vsub_comm (a b : list float) :
  norm float64 (vsub float64 a b) = norm float64 (vsub float64 b a).
Proof.
  unfold norm. f_equal. apply dot_squares. simpl.
  apply Forall2_fmap. unfold vsub. simpl.
  revert b. induction a as [|s a IH]; intros [|t b]; simpl; try constructor.
  - apply sub_sq.
  - apply IH.
Qed.

Lemma norm_vsub_diag (a : list float) :
  Forall (λ t, is_finite t = true) a → norm float64 (vsub float64 a a) = 0.
Proof.
  intros Ha. unfold norm.
  assert (H : astype_float float64 <$> vsub float64 a a = replicate (length a) 0).
  { unfold vsub. induction Ha as [|t a Ht _ IH]; [done|].
    cbn [zip_with fmap list_fmap length replicate]. rewrite IH. f_equal.
    by apply sub_diag. }
  by rewrite H, dot_zeros.
Qed.

(** On int64 too the squares of [a - b] and of [b - a] agree. *)
Lemma wrap64_swap (a b : Z) :
  (wrap64 (a - b) = - 2 ^ 63 ∧ wrap64 (b - a) = - 2 ^ 63)%Z
  ∨ (- 2 ^ 63 < wrap64 (a - b) < 2 ^ 63 ∧ wrap64 (b - a) = - wrap64 (a - b))%Z.
Proof.
  unfold wrap64.
  change (2 ^ 63)%Z with 9223372036854775808%Z.
  change (2 ^ 64)%Z with 18446744073709551616%Z.
  Z.div_mod_to_equations. lia.
Qed.

Lemma int64_to_float_opp (z : Z) :
  (- 2 ^ 63 < z < 2 ^ 63)%Z →
  int64_to_float (- z) * int64_to_float (- z) = int64_to_float z * int64_to_float z.
Proof.
  intros Hz. unfold int64_to_float.
  destruct (decide (z = 0%Z)) as [->|Hz0]; [done|].
  rewrite (decide_False (P := (z = _)%Z)) by lia.
  rewrite (decide_False (P := (- z = _)%Z)) by lia.
  destruct (decide (z < 0)%Z) as [Hneg|Hpos].
  - rewrite (decide_False (P := (- z < 0)%Z)) by lia. by rewrite opp_sq.
  - rewrite (decide_True (P := (- z < 0)%Z)) by lia.
    rewrite Z.opp_involutive. by rewrite opp_sq.
Qed.

Lemma norm_vsub_comm_int64 (a b : list Z) :
  norm int64 (vsub int64 a b) = norm int64 (vsub int64 b a).
Proof.
  unfold norm. f_equal. apply dot_squares. simpl.
  apply Forall2_fmap. unfold vsub. simpl.
  revert b. induction a as [|s a IH]; intros [|t b]; simpl; try constructor; [|apply IH].
  destruct (wrap64_swap s t) as [[-> ->]|[Hne ->]]; [done|].
  symmetry. by apply int64_to_float_opp.
Qed.

Lemma norm_vsub_diag_int64 (a : list Z) : norm int64 (vsub int64 a a) = 0.
Proof.
  unfold norm.
  assert (H : astype_float int64 <$> vsub int64 a a = replicate (length a) 0).
  { unfold vsub. induction a as [|t a IH]; [done|].
    cbn [zip_with fmap list_fmap length replicate]. rewrite IH. f_equal.
    cbn [dsub astype_float int64]. by rewrite Z.sub_diag. }
  by rewrite H, dot_zeros.
Qed.

End Floats.

(** ** The instances *)

Lemma fixed_solver_sound x objVal : sound (fixed_solver x objVal).
Proof.
  intros m x' c. unfold fixed_solver.
  destruct (decide (feasible x m)); [|done]. by intros [= <- <-].
Qed.

Lemma square_cost3 : square cost3.
Proof. by repeat constructor. Qed.

Lemma square_cost5 : square cost5.
Proof. by repeat constructor. Qed.

Lemma sum_lengths (rs : list (list nat)) : sum_list_with length rs = length (concat rs).
Proof.
  induction rs as [|r rs IH]; [done|]. simpl. by rewrite length_app, IH.
Qed.

(** ** The values of [u] along a route *)

Section RouteBounds.
Context {Cost : Type}.
Variables (cost : list (list Cost)) (salesmen : nat).
Variables (min_cities max_cities output_flag time_limit : option Z).
Variables (m : Model Cost) (x : Assignment).
Hypothesis Hm :
  formulate cost salesmen min_cities max_cities output_flag time_limit = Some m.
Hypothesis Hx : feasible x m.

Let n := length cost.
Let K := default 2 min_cities.
Let L := default (Z.of_nat n) max_cities.

Lemma subtour_holds c : c ∈ subtour_constrs n K L → holds x c.
Proof. by apply (holds_subtour cost salesmen min_cities max_cities output_flag time_limit m). Qed.

Lemma sel_one i j : (i, j) ∈ select n x → x (e_var i j) = 1.
Proof. by apply (selected_one cost salesmen min_cities max_cities output_flag time_limit m). Qed.

Lemma sel_zero i j :
  (i < n)%nat → (j < n)%nat → (i, j) ∉ select n x → x (e_var i j) = 0.
Proof. by apply (not_selected_zero cost salesmen min_cities max_cities output_flag time_limit m). Qed.

Lemma sel_binary i j : (i < n)%nat → (j < n)%nat → 0 ≤ x (e_var i j) ≤ 1.
Proof. by apply (e_binary cost salesmen min_cities max_cities output_flag time_limit m). Qed.

(** The three constraints of a node other than the depot, and the constraint
    of a pair of such nodes, as inequalities. *)
Lemma node_constraints i :
  (1 ≤ i < n)%nat →
  spec_first x L i ∧ spec_last x K i ∧ spec_exclusive x i.
Proof.
  intros Hi. split_and!.
  - assert (Hc : holds x (first_bound L i)).
    { apply subtour_holds, elem_of_subtour_constrs. left. by exists i. }
    unfold holds, first_bound, eval in Hc. simpl in Hc. unfold spec_first. lia.
  - assert (Hc : holds x (last_bound K i)).
    { apply subtour_holds, elem_of_subtour_constrs. right; left. by exists i. }
    unfold holds, last_bound, eval in Hc. simpl in Hc. unfold spec_last. lia.
  - assert (Hc : holds x (not_both i)).
    { apply subtour_holds, elem_of_subtour_constrs. right; right; left. by exists i. }
    unfold holds, not_both, eval in Hc. simpl in Hc. unfold spec_exclusive. lia.
Qed.

Lemma pair_constraint i j :
  (1 ≤ i < n)%nat → (1 ≤ j < n)%nat → i ≠ j → spec_order x L i j.
Proof.
  intros Hi Hj Hne.
  assert (Hc : holds x (order_pair L i j)).
  { apply subtour_holds, elem_of_subtour_constrs. right; right; right. by exists i, j. }
  unfold holds, order_pair, eval in Hc. simpl in Hc. unfold spec_order. lia.
Qed.

(** The first node of a route has the value 1. *)
Lemma u_first j : (0%nat, j) ∈ select n x → x (u_var j) = 1.
Proof.
  intros H0j. pose proof (sel_one _ _ H0j) as He.
  pose proof H0j as (Hn & Hj & _)%elem_of_select.
  assert (Hj0 : j ≠ 0%nat).
  { intros ->. pose proof (e_loop cost salesmen min_cities max_cities output_flag
      time_limit m x Hm Hx 0 Hn). lia. }
  destruct (node_constraints j) as (H1 & H2 & H3); [lia|].
  pose proof (sel_binary j 0 Hj Hn).
  unfold spec_first, spec_last, spec_exclusive in *.
  assert (x (e_var j 0) = 0) as H0 by lia. rewrite H0, He in *. lia.
Qed.

(** The last node of a route has a value between [K] and [L]. *)
Lemma u_last i : i ≠ 0%nat → (i, 0%nat) ∈ select n x → K ≤ x (u_var i) ≤ L.
Proof.
  intros Hi0 Hi. pose proof (sel_one _ _ Hi) as He.
  pose proof Hi as (Hin & Hn & _)%elem_of_select.
  destruct (node_constraints i) as (H1 & H2 & H3); [lia|].
  pose proof (sel_binary 0 i Hn Hin).
  unfold spec_first, spec_last, spec_exclusive in *.
  assert (x (e_var 0 i) = 0) as H0 by lia. rewrite H0, He in *. lia.
Qed.

(** Along a selected edge between two nodes other than the depot the value
    goes up by exactly one. *)
Lemma u_step i j :
  (i, j) ∈ select n x → i ≠ 0%nat → j ≠ 0%nat → x (u_var j) = x (u_var i) + 1.
Proof.
  intros Hij Hi0 Hj0. pose proof (sel_one _ _ Hij) as He.
  pose proof Hij as (Hi & Hj & _)%elem_of_select.
  pose proof (feasible_ranked cost salesmen min_cities max_cities output_flag
    time_limit m x Hm Hx) as Hrk.
  pose proof (Hrk i j Hij Hi0 Hj0) as Hlt. simpl in Hlt.
  assert (Hne : i ≠ j) by (intros ->; lia).
  assert (Hji : x (e_var j i) = 0).
  { apply sel_zero; [done..|]. intros Hji.
    pose proof (Hrk j i Hji Hj0 Hi0) as Hgt. simpl in Hgt. lia. }
  pose proof (pair_constraint j i) as Hc. unfold spec_order in Hc.
  rewrite He, Hji in Hc. lia.
Qed.

(** Walking from a node [p] of value [a] (or from the depot, with [a = 0])
    along selected edges through nodes other than the depot: the [k]-th node
    reached has the value [a + k + 1]. *)
Lemma u_along t : ∀ p a c,
  (∀ e, e ∈ trail (p :: t) c → e ∈ select n x) →
  0%nat ∉ t →
  (p = 0%nat ∧ a = 0) ∨ (p ≠ 0%nat ∧ x (u_var p) = a) →
  ∀ k v, t !! k = Some v → x (u_var v) = a + Z.of_nat k + 1.
Proof.
  induction t as [|v' t IH]; intros p a c Hsel H0 Hp k v Hk; [done|].
  apply not_elem_of_cons in H0 as [Hv' H0].
  assert (Hpv : (p, v') ∈ select n x) by (apply Hsel; left).
  assert (Hu : x (u_var v') = a + 1).
  { destruct Hp as [[-> ->]|[Hp <-]]; [by apply u_first|by apply u_step]. }
  destruct k as [|k]; simpl in Hk.
  - injection Hk as <-. lia.
  - rewrite (IH v' (a + 1) c) with (k := k) (v := v); [lia| |done|by right|done].
    intros e He. apply Hsel. by right.
Qed.

(** A route of selected edges that leaves the depot, passes through nodes
    other than the depot and returns: the values of [u] are the positions in
    the route, and the number of nodes visited lies between [K] and [L] and
    is at least two. *)
Lemma closed_route_bounds t :
  (∀ e, e ∈ closed_edges (0%nat :: t) → e ∈ select n x) →
  0%nat ∉ t →
  t ≠ [] →
  (∀ k v, t !! k = Some v → x (u_var v) = Z.of_nat k + 1)
  ∧ K ≤ Z.of_nat (length t) ≤ L
  ∧ (2 ≤ length t)%nat.
Proof.
  intros Hsel H0 Hne.
  assert (Hpos : ∀ k v, t !! k = Some v → x (u_var v) = Z.of_nat k + 1).
  { intros k v Hk.
    rewrite (u_along t 0%nat 0 0%nat Hsel H0 (or_introl (conj eq_refl eq_refl)) k v Hk).
    lia. }
  split; [done|].
  destruct (last t) as [z|] eqn:Hlast; [|by apply last_None in Hlast].
  pose proof Hlast as [t0 ->]%last_Some.
  assert (Hz0 : z ≠ 0%nat).
  { intros ->. apply H0, elem_of_app. right. left. }
  assert (Hback : (z, 0%nat) ∈ select n x).
  { apply Hsel. unfold closed_edges.
    change (0%nat :: t0 ++ [z]) with ((0%nat :: t0) ++ [z]).
    rewrite trail_snoc. apply elem_of_app. right. left. }
  assert (Huz : x (u_var z) = Z.of_nat (length t0) + 1).
  { apply Hpos. rewrite lookup_app_r by lia. by rewrite Nat.sub_diag. }
  pose proof (u_last z Hz0 Hback) as Hb.
  rewrite length_app. simpl. split; [lia|].
  destruct t0 as [|y t0]; [|simpl; lia]. exfalso.
  assert (Hout : (0%nat, z) ∈ select n x) by (apply Hsel; left).
  pose proof (sel_one _ _ Hout). pose proof (sel_one _ _ Hback).
  pose proof Hout as (_ & Hz & _)%elem_of_select.
  destruct (node_constraints z) as (_ & _ & H3); [lia|].
  unfold spec_exclusive in H3. lia.
Qed.

(** The routes of a feasible assignment. *)
Lemma feasible_routes fuel :
  (length (select n x) < fuel)%nat →
  ∃ rs,
    extract fuel salesmen (select n x)
    = inr {| routes := rs; next_city := 0; selected := [] |}
    ∧ length rs = salesmen
    ∧ Forall (λ r, head r = Some 0%nat) rs
    ∧ concat (closed_edges <$> rs) ≡ₚ select n x
    ∧ concat (tail <$> rs) ≡ₚ range 1 n.
Proof.
  intros Hfuel.
  destruct (extract_closed_routes (λ i, x (u_var i)) (select n x) salesmen fuel)
    as (rs & Hex & Hlen & Hhd & Hperm).
  - by eapply feasible_balanced.
  - by eapply feasible_ranked.
  - unfold n. erewrite feasible_outdeg by done. unfold degree_of. by rewrite decide_True.
  - done.
  - exists rs. split_and!; [done..|].
    assert (Hnodes : concat rs ≡ₚ replicate salesmen 0%nat ++ range 1 n).
    { rewrite <- fst_closed_edges, Hperm. unfold n. by erewrite feasible_fst. }
    rewrite (concat_heads rs Hhd), Hlen in Hnodes.
    by apply (inj (app (replicate salesmen 0%nat))) in Hnodes.
Qed.

(** Every route of a feasible assignment. *)
Lemma feasible_route_bounds rs r :
  Forall (λ r, head r = Some 0%nat) rs →
  concat (closed_edges <$> rs) ≡ₚ select n x →
  concat (tail <$> rs) ≡ₚ range 1 n →
  r ∈ rs →
  (∀ k v, tail r !! k = Some v → x (u_var v) = Z.of_nat k + 1)
  ∧ K ≤ Z.of_nat (length (tail r)) ≤ L
  ∧ (2 ≤ length (tail r))%nat.
Proof.
  intros Hhd Hedges Hnodes Hr.
  rewrite Forall_forall in Hhd. specialize (Hhd r Hr).
  destruct r as [|a t]; [done|]. injection Hhd as ->. simpl.
  assert (Hsel : ∀ e, e ∈ closed_edges (0%nat :: t) → e ∈ select n x).
  { intros e He. rewrite <- Hedges. by eapply elem_of_closed_edges. }
  assert (H0 : 0%nat ∉ t).
  { intros Hin.
    assert (H : 0%nat ∈ concat (tail <$> rs)).
    { apply list_elem_of_split in Hr as (rs1 & rs2 & ->).
      rewrite fmap_app, concat_app. apply elem_of_app. right.
      rewrite fmap_cons. simpl. apply elem_of_app. by left. }
    rewrite Hnodes in H. apply elem_of_range in H. lia. }
  apply closed_route_bounds; [done..|].
  intros ->. specialize (Hsel (0%nat, 0%nat) (list_elem_of_here _ _)).
  pose proof (sel_one _ _ Hsel) as H1.
  apply elem_of_select in Hsel as (Hn & _ & _).
  pose proof (e_loop cost salesmen min_cities max_cities output_flag time_limit m x
    Hm Hx 0 Hn). lia.
Qed.

End RouteBounds.

(** ** The extraction on an arbitrary list of edges *)

Section AnyEdges.
Local Open Scope nat_scope.

(** One scan: nothing changes and no edge leaves [next_city], or one edge
    that does is followed and removed. *)
Lemma scan_outcome i w :
  (scan i (range 0 (length (selected w))) w = Some w
   ∧ outdeg (selected w) (next_city w) = 0)
  ∨ (∃ j d, selected w !! j = Some (next_city w, d)
            ∧ scan i (range 0 (length (selected w))) w
              = Some (follow i j (next_city w, d) w)).
Proof.
  destruct (scan_cases i (range 0 (length (selected w))) w) as [[Hs Hno]|Hf].
  - apply Forall_forall. intros j Hj. apply elem_of_seq in Hj. lia.
  - left. split; [done|].
    destruct (outdeg (selected w) (next_city w)) eqn:E; [done|]. exfalso.
    destruct (outdeg_pos (selected w) (next_city w)) as [d Hd]; [lia|].
    apply list_elem_of_lookup in Hd as [j Hj].
    apply (Hno j _) in Hj; [done|].
    apply elem_of_seq. apply lookup_lt_Some in Hj. lia.
  - right. destruct Hf as (j & [a d] & Hj & Ha & Hs). simpl in Ha. subst a. eauto.
Qed.

Lemma while_no_raise fuel : ∀ i w e, while_not_finished fuel i w ≠ inl (Raised e).
Proof.
  induction fuel as [|fuel IH]; intros i w e; [done|]. simpl.
  destruct (scan_outcome i w) as [[-> _]|(j & d & _ & ->)];
    (destruct (decide _); [done|apply IH]).
Qed.

Lemma while_mono fuel : ∀ i w w' fuel',
  while_not_finished fuel i w = inr w' → fuel ≤ fuel' →
  while_not_finished fuel' i w = inr w'.
Proof.
  induction fuel as [|fuel IH]; intros i w w' fuel' Hw Hle; [done|].
  destruct fuel' as [|fuel']; [lia|]. simpl in *.
  destruct (scan i _ w) as [w1|]; [|done].
  destruct (decide (next_city w1 = 0)); [done|]. apply (IH _ _ _ _ Hw). lia.
Qed.

(** A loop that ends does so within [length selected + 1] rounds. *)
Lemma while_bounded fuel : ∀ i w w',
  while_not_finished fuel i w = inr w' →
  while_not_finished (S (length (selected w))) i w = inr w'.
Proof.
  induction fuel as [|fuel IH]; intros i w w' Hw; [done|].
  simpl in Hw.
  destruct (scan_outcome i w) as [[Hs _]|(j & d & Hj & Hs)]; rewrite Hs in Hw.
  - destruct (decide (next_city w = 0)) as [H0|H0].
    + cbn [while_not_finished]. rewrite Hs. by rewrite decide_True.
    + by apply IH.
  - cbn [while_not_finished]. rewrite Hs.
    destruct (decide (next_city (follow i j (next_city w, d) w) = 0)); [done|].
    apply IH in Hw. cbn [follow selected] in Hw.
    assert (Hl : length (selected w) = S (length (delete j (selected w)))).
    { pose proof (delete_Permutation _ _ _ Hj) as HS.
      by apply Permutation_length in HS. }
    by rewrite Hl.
Qed.

(** What a loop that ends has done: it has extended the last route by the
    nodes it left, and removed from the working list the edges it followed.
    It leaves the route as it is only when it stands at the depot and no edge
    leaves the depot. *)
Lemma while_returns fuel : ∀ rs r c S w',
  while_not_finished fuel (length rs)
    {| routes := rs ++ [r]; next_city := c; selected := S |} = inr w' →
  ∃ r' S',
    w' = {| routes := rs ++ [r ++ r']; next_city := 0; selected := S' |}
    ∧ trail r c ++ S ≡ₚ closed_edges (r ++ r') ++ S'
    ∧ (r' = [] → c = 0 ∧ outdeg S' 0 = 0)
    ∧ (r' ≠ [] → head r' = Some c).
Proof.
  induction fuel as [|fuel IH]; intros rs r c S w' Hw; [done|].
  set (w := {| routes := rs ++ [r]; next_city := c; selected := S |}) in *.
  cbn [while_not_finished] in Hw.
  destruct (scan_outcome (length rs) w) as [[Hs Hout]|(j & d & Hj & Hs)];
    rewrite Hs in Hw; simpl in *.
  - destruct (decide (c = 0)) as [->|Hc].
    + injection Hw as <-. exists [], S. rewrite app_nil_r. by split_and!.
    + by apply IH.
  - assert (Hf : follow (length rs) j (c, d) w
               = {| routes := rs ++ [r ++ [c]]; next_city := d; selected := delete j S |}).
    { unfold follow, w. simpl. f_equal.
      replace (length rs) with (length rs + 0) by lia. by rewrite alter_app_r. }
    rewrite Hf in Hw. simpl in Hw.
    pose proof (delete_Permutation _ _ _ Hj) as HS.
    destruct (decide (d = 0)) as [->|Hd].
    + injection Hw as <-. exists [c], (delete j S). split_and!; [done| |done|done].
      unfold closed_edges. rewrite trail_snoc, HS at 1.
      by rewrite <- (assoc_L (++)).
    + apply IH in Hw as (r' & S' & -> & Hperm & _ & _).
      exists (c :: r'), S'. rewrite <- (assoc_L (++)) in Hperm |- *.
      split_and!; [done| |done|done].
      rewrite <- Hperm, trail_snoc, <- (assoc_L (++)). by rewrite HS at 1.
Qed.

Lemma extract_snoc fuel k S :
  extract fuel (Datatypes.S k) S = salesman_round fuel (extract fuel k S) k.
Proof.
  unfold extract, range. rewrite !Nat.sub_0_r. by rewrite seq_S, foldl_snoc.
Qed.

Lemma extract_no_raise fuel k S e : extract fuel k S ≠ inl (Raised e).
Proof.
  induction k as [|k IH]; [done|]. rewrite extract_snoc.
  destruct (extract fuel k S) as [[e'|]|w]; simpl; [done|done|].
  apply while_no_raise.
Qed.

(** What an extraction that ends has done. *)
Lemma extract_returns fuel S : ∀ k w,
  extract fuel k S = inr w →
  length (routes w) = k
  ∧ next_city w = 0
  ∧ concat (closed_edges <$> routes w) ++ selected w ≡ₚ S
  ∧ Forall (λ r, head r = Some 0 ∨ r = [] ∧ outdeg (selected w) 0 = 0) (routes w).
Proof.
  induction k as [|k IH]; intros w Hw.
  - injection Hw as <-. by split_and!.
  - rewrite extract_snoc in Hw.
    destruct (extract fuel k S) as [?|w0] eqn:E; [done|].
    destruct (IH w0 eq_refl) as (Hlen & _ & Hperm & Hall).
    simpl in Hw. rewrite <- Hlen in Hw.
    apply while_returns in Hw as (r' & S' & -> & Hp & Hnil & Hhd).
    simpl. simpl in Hp.
    assert (Hsub : ∀ v, outdeg S' v ≤ outdeg (selected w0) v).
    { intros v. rewrite Hp, outdeg_app. lia. }
    split_and!.
    + rewrite length_app. simpl. lia.
    + done.
    + rewrite fmap_app, concat_app. simpl. rewrite app_nil_r.
      rewrite <- (assoc_L (++)), <- Hp. done.
    + apply Forall_app. split.
      * eapply Forall_impl; [exact Hall|]. intros r [?|[-> H0]]; [by left|].
        right. split; [done|]. specialize (Hsub 0). lia.
      * constructor; [|done]. destruct r' as [|a r'].
        -- right. split; [done|]. by apply Hnil.
        -- left. by apply Hhd.
Qed.

Lemma extract_selected_length fuel S k w :
  extract fuel k S = inr w → length (selected w) ≤ length S.
Proof.
  intros (_ & _ & Hp & _)%extract_returns.
  apply Permutation_length in Hp. rewrite length_app in Hp. lia.
Qed.

Lemma extract_mono fuel fuel' S : ∀ k w,
  extract fuel k S = inr w → fuel ≤ fuel' → extract fuel' k S = inr w.
Proof.
  induction k as [|k IH]; intros w Hw Hle; [done|].
  rewrite extract_snoc in *.
  destruct (extract fuel k S) as [?|w0] eqn:E; [done|].
  rewrite (IH w0 eq_refl Hle). cbn [salesman_round] in *. by eapply while_mono.
Qed.

Lemma extract_bounded fuel S : ∀ k w,
  extract fuel k S = inr w → extract (Datatypes.S (length S)) k S = inr w.
Proof.
  induction k as [|k IH]; intros w Hw; [done|].
  rewrite extract_snoc in *.
  destruct (extract fuel k S) as [?|w0] eqn:E; [done|].
  rewrite (IH w0 eq_refl). cbn [salesman_round] in *.
  apply while_bounded in Hw. cbn [selected] in Hw.
  eapply while_mono; [exact Hw|].
  apply extract_selected_length in E. lia.
Qed.

End AnyEdges.

(** ** The variables of the model *)

Section ModelVariables.
Context {Cost : Type}.
Implicit Types (cost : list (list Cost)).

(** The loop of lines 68-70 gives the variable of the pair [(i, j)] the
    objective coefficient [cost[i, j]]. *)
Lemma foldl_add_e_var_obj cost ps : ∀ acc ev,
  foldl (add_e_var cost) (Some acc) ps = Some ev →
  ∀ ij, ij ∈ ps →
    ∃ c, cost_at cost ij.1 ij.2 = Some c
         ∧ ev !! ij = Some (mkVar 0 1 BINARY (Some c) (e_name ij.1 ij.2)).
Proof.
  induction ps as [|p ps IH]; intros acc ev Hfold ij Hin; [by apply elem_of_nil in Hin|].
  simpl in Hfold.
  destruct (cost_at cost p.1 p.2) as [c|] eqn:Hc; simpl in Hfold;
    [|by rewrite foldl_add_e_var_None in Hfold].
  destruct (decide (ij ∈ ps)) as [Hps|Hps]; [by eapply IH|].
  apply elem_of_cons in Hin as [->|Hin]; [|done].
  exists c. split; [done|].
  destruct (foldl_add_e_var _ _ _ _ Hfold p) as [_ Hnot].
  rewrite (Hnot Hps). by rewrite lookup_insert_eq.
Qed.

Lemma foldl_add_e_var_Some cost ps : ∀ acc,
  is_Some (foldl (add_e_var cost) (Some acc) ps) →
  ∀ ij, ij ∈ ps → is_Some (cost_at cost ij.1 ij.2).
Proof.
  intros acc [ev Hev] ij Hin.
  destruct (foldl_add_e_var_obj _ _ _ _ Hev ij Hin) as (c & Hc & _). by exists c.
Qed.

Lemma create_u_vars_lookup_ge (n : nat) (L : Z) (i : nat) :
  (n ≤ i)%nat → create_u_vars (Cost := Cost) n L !! i = None.
Proof.
  unfold create_u_vars. intros Hi.
  assert (H : ∀ l (acc : gmap nat (Var Cost)), i ∉ l →
    foldl (λ acc i, <[i := mkVar 0 L INTEGER None (u_name i)]> acc) acc l !! i = acc !! i).
  { induction l as [|a l IH]; intros acc Hin; [done|].
    apply not_elem_of_cons in Hin as [Hne Hin]. simpl.
    rewrite (IH _ Hin). by rewrite lookup_insert_ne. }
  rewrite H; [done|]. intros Hin%elem_of_range. lia.
Qed.

(** The model is built exactly when every row of [cost] has at least as many
    entries as [cost] has rows. *)
Lemma formulate_rows cost salesmen min_cities max_cities output_flag time_limit :
  is_Some (formulate cost salesmen min_cities max_cities output_flag time_limit)
  ↔ Forall (λ row, (length cost ≤ length row)%nat) cost.
Proof.
  assert (Hiff : is_Some (create_e_vars cost (length cost))
                 ↔ Forall (λ row, (length cost ≤ length row)%nat) cost).
  { unfold create_e_vars. split.
    - intros Hsome. apply Forall_forall. intros row Hrow.
      apply list_elem_of_lookup in Hrow as [i Hi].
      pose proof (lookup_lt_Some _ _ _ Hi) as Hlt.
      destruct (length cost) as [|n'] eqn:En; [lia|].
      destruct (foldl_add_e_var_Some _ _ _ Hsome (i, n')) as [c Hc].
      { apply elem_of_index_pairs. lia. }
      unfold cost_at in Hc. simpl in Hc. rewrite Hi in Hc. simpl in Hc.
      apply lookup_lt_Some in Hc. lia.
    - intros Hall. apply foldl_add_e_var_total.
      intros [i j] [Hi Hj]%elem_of_index_pairs. unfold cost_at. simpl.
      destruct (lookup_lt_is_Some_2 _ _ Hi) as [row Hrow]. rewrite Hrow. simpl.
      apply lookup_lt_is_Some_2. rewrite Forall_forall in Hall.
      specialize (Hall row (list_elem_of_lookup_2 _ _ _ Hrow)). lia. }
  rewrite <- Hiff. unfold formulate.
  destruct (create_e_vars cost (length cost)); simpl; [|done].
  split; intros _; by eexists.
Qed.

End ModelVariables.

(** ** Sums of route lengths *)

Lemma length_concat_bounds (a b : Z) (ts : list (list nat)) :
  Forall (λ t, a ≤ Z.of_nat (length t) ≤ b) ts →
  a * Z.of_nat (length ts) ≤ Z.of_nat (length (concat ts)) ≤ b * Z.of_nat (length ts).
Proof.
  induction ts as [|t ts IH]; intros Hts; [simpl; lia|].
  apply Forall_cons in Hts as [Ht Hts]. specialize (IH Hts).
  simpl. rewrite length_app. lia.
Qed.

(** ** Routes and bounds of a call *)

Section CallRoutes.
Context {Cost : Type}.
Variable optimize : Model Cost → option (Assignment * Cost).

(** A call whose optimiser returns a feasible assignment: its routes. *)
Lemma mtsp_solver_routes (cost : list (list Cost)) salesmen min_cities max_cities
    output_flag time_limit (m : Model Cost) x objVal fuel :
  formulate cost salesmen min_cities max_cities output_flag time_limit = Some m →
  optimize m = Some (x, objVal) →
  feasible x m →
  (salesmen + length cost < fuel)%nat →
  ∃ rs,
    mtsp_solver optimize fuel salesmen min_cities max_cities output_flag time_limit
      (call cost)
    = Return (rs, objVal, m)
        {| st_cost := cost; st_model := Some m; st_selected := []; st_routes := rs |}
    ∧ length rs = salesmen
    ∧ Forall (λ r, head r = Some 0%nat) rs
    ∧ concat (closed_edges <$> rs) ≡ₚ select (length cost) x
    ∧ concat (tail <$> rs) ≡ₚ range 1 (length cost).
Proof.
  intros Hm Hopt Hx Hfuel.
  pose proof (length_select_feasible _ _ _ _ _ _ _ _ Hm Hx) as Hlen.
  destruct (mtsp_solver_feasible optimize _ _ _ _ _ _ _ _ _ fuel Hm Hopt Hx)
    as (rs & Hrun & Hcount & Hhd & Hedges & Hnodes); [lia|].
  exists rs. split_and!; [done..|].
  rewrite (concat_heads rs Hhd), Hcount in Hnodes.
  by apply (inj (app (replicate salesmen 0%nat))) in Hnodes.
Qed.

End CallRoutes.

(** A call whose optimiser has no solution: on an array with a row the read
    of [X] raises; on the array without rows the loop runs on no edge and the
    read of [objVal] raises. *)
Lemma extract_nil fuel : ∀ salesmen,
  (0 < fuel)%nat →
  extract fuel salesmen []
  = inr {| routes := replicate salesmen []; next_city := 0; selected := [] |}.
Proof.
  intros salesmen Hfuel. induction salesmen as [|k IH]; [done|].
  rewrite extract_snoc, IH. cbn [salesman_round routes selected].
  destruct fuel as [|fuel]; [lia|]. cbn.
  f_equal. f_equal. symmetry. apply (replicate_S_end k []).
Qed.

Lemma no_solution_raises {Cost : Type}
    (optimize : Model Cost → option (Assignment * Cost)) (cost : Matrix Cost)
    (salesmen : nat) (min_cities max_cities output_flag time_limit : option Z)
    (m : Model Cost) (fuel : nat) :
  formulate cost salesmen min_cities max_cities output_flag time_limit = Some m →
  (0 < fuel)%nat →
  optimize m = None →
  mtsp_solver optimize fuel salesmen min_cities max_cities output_flag time_limit
    (call cost)
  = match cost with
    | _ :: _ =>
        Raise GurobiError
          {| st_cost := cost; st_model := Some m; st_selected := [];
             st_routes := [] |}
    | [] =>
        Raise AttributeError
          {| st_cost := cost; st_model := Some m; st_selected := [];
             st_routes := replicate salesmen [] |}
    end.
Proof.
  intros Hm Hfuel Hopt.
  pose proof (size_vars _ _ _ _ _ _ _ Hm) as Hsize.
  unfold mtsp_solver, call. cbn [st_cost st_model st_selected st_routes].
  rewrite Hm, Hopt. unfold read_X.
  destruct cost as [|row cost].
  - rewrite decide_True by (by apply Hsize).
    unfold extraction. cbn [st_cost st_model st_selected st_routes length].
    change (select 0 (λ _, 0)) with (@nil (nat * nat)).
    by rewrite extract_nil.
  - rewrite decide_False; [done|]. by intros ?%Hsize.
Qed.

(** The nodes other than the depot are shared out among the salesmen. *)
Lemma enough_nodes {Cost : Type} (cost : Matrix Cost)
    (salesmen : nat) (min_cities max_cities output_flag time_limit : option Z)
    (m : Model Cost) (x : Assignment) :
  formulate cost salesmen min_cities max_cities output_flag time_limit = Some m →
  feasible x m →
  (1 ≤ salesmen)%nat →
  let n := Z.of_nat (length cost) in
  let K := default 2 min_cities in
  let L := default n max_cities in
  2 * Z.of_nat salesmen ≤ n - 1
  ∧ K * Z.of_nat salesmen ≤ n - 1 ≤ L * Z.of_nat salesmen.
Proof.
  intros Hm Hx Hk n K L.
  destruct (feasible_routes _ _ _ _ _ _ _ _ Hm Hx
              (S (length (select (length cost) x)))) as (rs & _ & Hlen & Hhd & Hedges & Hnodes);
    [lia|].
  assert (Hall : ∀ r, r ∈ rs →
    (2 ≤ length (tail r))%nat ∧ K ≤ Z.of_nat (length (tail r)) ≤ L).
  { intros r Hr.
    destruct (feasible_route_bounds _ _ _ _ _ _ _ _ Hm Hx rs r Hhd Hedges Hnodes Hr)
      as (_ & HKL & H2). done. }
  assert (Hsum : Z.of_nat (length (concat (tail <$> rs))) = Z.of_nat (length cost - 1)).
  { rewrite Hnodes. unfold range. by rewrite length_seq. }
  pose proof (length_concat_bounds 2 L (tail <$> rs)) as H2.
  pose proof (length_concat_bounds K L (tail <$> rs)) as HK.
  rewrite length_fmap, Hlen, Hsum in H2, HK.
  assert (H2' : 2 * Z.of_nat salesmen ≤ Z.of_nat (length cost - 1) ≤ L * Z.of_nat salesmen).
  { apply H2. apply Forall_fmap, Forall_forall. intros r Hr. simpl.
    destruct (Hall r Hr). lia. }
  assert (HK' : K * Z.of_nat salesmen ≤ Z.of_nat (length cost - 1) ≤ L * Z.of_nat salesmen).
  { apply HK. apply Forall_fmap, Forall_forall. intros r Hr. simpl.
    destruct (Hall r Hr). lia. }
  unfold n in *. lia.
Qed.

(** ** The grid of [generate_grid] *)

Section Grid.

Lemma elem_of_zrange a b k : k ∈ zrange a b ↔ a ≤ k < b.
Proof. unfold zrange. rewrite elem_of_seqZ. lia. Qed.

Lemma length_zrange a b : length (zrange a b) = Z.to_nat (b - a).
Proof. unfold zrange. apply length_seqZ. Qed.

Lemma half_floor_ceil y : y / 2 + - (- y / 2) = y.
Proof. Z.div_mod_to_equations. lia. Qed.

Lemma half_bounds y d : - (y / 2) ≤ d < - (- y / 2) ↔ - y ≤ 2 * d < y.
Proof. Z.div_mod_to_equations. lia. Qed.

Lemma length_bind_const {A B} (f : A → list B) (c : nat) (l : list A) :
  (∀ a, a ∈ l → length (f a) = c) → length (l ≫= f) = (length l * c)%nat.
Proof.
  induction l as [|a l IH]; intros Hf; [done|].
  csimpl. rewrite length_app, (Hf a) by left.
  rewrite IH by (intros b Hb; apply Hf; by right). lia.
Qed.

(** The nodes between the first and the last, for the columns [x1 .. x2 - 1]
    and the rows [y1 .. y2 - 1]. *)
Lemma elem_of_grid x1 x2 y1 y2 p :
  p ∈ (i ← zrange x1 x2; j ← zrange y1 y2; [[i; j]])
  ↔ ∃ i j, p = [i; j] ∧ x1 ≤ i < x2 ∧ y1 ≤ j < y2.
Proof.
  rewrite list_elem_of_bind. split.
  - intros (i & Hin & Hi%elem_of_zrange).
    apply list_elem_of_bind in Hin as (j & Hin & Hj%elem_of_zrange).
    apply list_elem_of_singleton in Hin. by exists i, j.
  - intros (i & j & -> & Hi & Hj). exists i. split; [|by apply elem_of_zrange].
    apply list_elem_of_bind. exists j. split; [left|by apply elem_of_zrange].
Qed.

Lemma NoDup_grid x1 x2 y1 y2 :
  NoDup (i ← zrange x1 x2; j ← zrange y1 y2; [[i; j]]).
Proof.
  apply NoDup_bind; [| |apply NoDup_seqZ].
  - intros i1 i2 p _ _ H1 H2.
    apply list_elem_of_bind in H1 as (j1 & H1 & _), H2 as (j2 & H2 & _).
    apply list_elem_of_singleton in H1, H2. congruence.
  - intros i _. apply NoDup_bind; [| |apply NoDup_seqZ].
    + intros j1 j2 p _ _ H1 H2. apply list_elem_of_singleton in H1, H2. congruence.
    + intros j _. apply NoDup_singleton.
Qed.

Lemma length_grid x1 x2 y1 y2 :
  length (i ← zrange x1 x2; j ← zrange y1 y2; [[i; j]])
  = (Z.to_nat (x2 - x1) * Z.to_nat (y2 - y1))%nat.
Proof.
  rewrite (length_bind_const _ (Z.to_nat (y2 - y1))), length_zrange; [done|].
  intros i _. rewrite (length_bind_const _ 1%nat), length_zrange by done. lia.
Qed.

End Grid.

(** ** Rows of the nodes and the image of a route *)

Section Plotting.

Lemma indexes_Routes rs : indexes (Routes rs) = rs.
Proof. by destruct rs. Qed.

Lemma rows_Some {A} (nodes : list (list A)) idx :
  Forall (λ k, (k < length nodes)%nat) idx →
  ∃ route, rows nodes idx = Some route
    ∧ length route = length idx
    ∧ ∀ k v, idx !! k = Some v → route !! k = nodes !! v.
Proof.
  induction 1 as [|v idx Hv _ (route & Hr & Hlen & Hk)].
  - exists []. by split_and!.
  - destruct (lookup_lt_is_Some_2 nodes v Hv) as [p Hp].
    exists (p :: route). unfold rows in *. cbn. rewrite Hp. cbn. rewrite Hr. cbn.
    split_and!; [done|by rewrite Hlen|].
    intros [|k] w Hw; simpl in *; [by injection Hw as <-|by apply Hk].
Qed.

Lemma inner_nodes_long {A} (p0 p1 pl : A) mid :
  inner_nodes (p0 :: p1 :: mid ++ [pl]) = p1 :: mid.
Proof.
  unfold inner_nodes. cbn [length drop]. rewrite length_app. simpl.
  replace (length mid + 1 - 0)%nat with (S (length mid)) by lia.
  simpl. f_equal. by rewrite take_app_length.
Qed.

Variable D : Dtype.
Variables np_exp np_log : float → float.

(** The loop [Z += cor(X, Y, node, max_range)] adds the values from the
    left. *)
Lemma correlation_sum x y max_range nodes : ∀ vs z,
  mapM (λ q, cor D np_exp np_log x y q max_range) nodes = Some vs →
  foldl (λ acc node,
           z ← acc; v ← cor D np_exp np_log x y node max_range; Some (z + v)%float)
        (Some z) nodes
  = Some (foldl PrimFloat.add z vs).
Proof.
  induction nodes as [|q nodes IH]; intros vs z Hvs; cbn in Hvs.
  - by injection Hvs as <-.
  - destruct (cor D np_exp np_log x y q max_range) as [v|] eqn:Hv; [|done].
    cbn in Hvs.
    destruct (mapM _ nodes) as [vs'|] eqn:Hvs'; [|done]. cbn in Hvs.
    injection Hvs as <-. cbn [foldl]. rewrite Hv. cbn [mbind option_bind].
    by rewrite (IH vs' _ eq_refl).
Qed.

Lemma cor_is_Some x y p max_range :
  (2 ≤ length p)%nat → is_Some (cor D np_exp np_log x y p max_range).
Proof. destruct p as [|c0 [|c1 rest]]; simpl; [lia..|]. intros _. by eexists. Qed.

Lemma mapM_cor_Some x y max_range nodes :
  Forall (λ p, (2 ≤ length p)%nat) nodes →
  is_Some (mapM (λ q, cor D np_exp np_log x y q max_range) nodes).
Proof.
  intros H. apply mapM_is_Some. eapply Forall_impl; [exact H|].
  intros p Hp. by apply cor_is_Some.
Qed.

Lemma correlation_at_long x y max_range p0 p1 pl mid v vs :
  cor D np_exp np_log x y p1 max_range = Some v →
  mapM (λ q, cor D np_exp np_log x y q max_range) mid = Some vs →
  correlation_at D np_exp np_log (p0 :: p1 :: mid ++ [pl]) max_range x y
  = Some (foldl PrimFloat.add (v + v)%float vs).
Proof.
  intros Hv Hvs. unfold correlation_at. rewrite inner_nodes_long.
  replace ((p0 :: p1 :: mid ++ [pl]) !! 1%nat) with (Some p1) by done.
  cbn [mbind option_bind]. rewrite Hv. cbn [mbind option_bind].
  erewrite (correlation_sum x y max_range (p1 :: mid) (v :: vs)).
  - done.
  - cbn. rewrite Hv. cbn. by rewrite Hvs.
Qed.

End Plotting.

(** * The claims *)

(** C1.  The model built on an [n × n] cost matrix, [n >= 2], with bounds
    [K] and [L], contains besides the degree constraints exactly four
    families of constraints: one of each of the first three for every node
    [i] other than the depot, and one of the fourth for every ordered pair of
    distinct such nodes; they say what the specification states. *)
Theorem subtour_elimination_families {Cost : Type} (cost : Matrix Cost)
    (salesmen : nat) (min_cities max_cities output_flag time_limit : option Z) :
  square cost →
  (2 ≤ length cost)%nat →
  let n := length cost in
  let K := default 2 min_cities in
  let L := default (Z.of_nat n) max_cities in
  ∃ m,
    formulate cost salesmen min_cities max_cities output_flag time_limit = Some m
    ∧ (∀ c, c ∈ constrs m ↔
         c ∈ degree_constrs n salesmen
         ∨ (∃ i, (1 ≤ i < n)%nat ∧ c = first_bound L i)
         ∨ (∃ i, (1 ≤ i < n)%nat ∧ c = last_bound K i)
         ∨ (∃ i, (1 ≤ i < n)%nat ∧ c = not_both i)
         ∨ (∃ i j, (1 ≤ i < n)%nat ∧ (1 ≤ j < n)%nat ∧ i ≠ j ∧ c = order_pair L i j))
    ∧ (∀ x i j,
         (holds x (first_bound L i) ↔ spec_first x L i)
         ∧ (holds x (last_bound K i) ↔ spec_last x K i)
         ∧ (holds x (not_both i) ↔ spec_exclusive x i)
         ∧ (holds x (order_pair L i j) ↔ spec_order x L i j)).
Proof.
  intros Hsq _ n K L.
  destruct (formulate_square cost salesmen min_cities max_cities output_flag time_limit Hsq)
    as [m Hm].
  exists m. split; [done|]. split.
  - intros c. apply formulate_Some in Hm as (_ & _ & _ & _ & ->).
    rewrite elem_of_app. by rewrite elem_of_subtour_constrs.
  - intros x i j.
    unfold holds, spec_first, spec_last, spec_exclusive, spec_order, eval. simpl.
    split_and!; lia.
Qed.

Lemma subtour_elimination_families_witness :
  ∃ m,
    formulate cost3 1 None None None None = Some m
    ∧ first_bound 3 1 ∈ constrs m
    ∧ order_pair 3 1 2 ∈ constrs m
    ∧ (holds tour3 (order_pair 3 1 2) ↔ spec_order tour3 3 1 2).
Proof.
  destruct (subtour_elimination_families cost3 1 None None None None square_cost3)
    as (m & Hm & Hmem & Hsem).
  - simpl. lia.
  - exists m. split_and!; [done| | |].
    + apply Hmem. right. left. exists 1%nat. split; [simpl; lia|done].
    + apply Hmem. do 4 right. exists 1%nat, 2%nat. split_and!; [simpl; lia..|done|done].
    + apply (Hsem tour3 1%nat 2%nat).
Defined.

(** C2.  The model built on an [n × n] cost matrix, [n >= 2], for a positive
    number of salesmen contains the two degree constraints of the depot and,
    for every other node, the two visit-once constraints; in every assignment
    that satisfies the model, the depot has exactly [salesmen] selected edges
    going out and [salesmen] coming in, and every other node has exactly one
    of each. *)
Theorem degree_constraints {Cost : Type} (cost : Matrix Cost)
    (salesmen : nat) (min_cities max_cities output_flag time_limit : option Z) :
  square cost →
  (2 ≤ length cost)%nat →
  (0 < salesmen)%nat →
  let n := length cost in
  ∃ m,
    formulate cost salesmen min_cities max_cities output_flag time_limit = Some m
    ∧ depot_out n salesmen ∈ constrs m
    ∧ depot_in n salesmen ∈ constrs m
    ∧ (∀ i, (1 ≤ i < n)%nat → leave_once n i ∈ constrs m ∧ enter_once n i ∈ constrs m)
    ∧ (∀ x,
         (holds x (depot_out n salesmen)
            ↔ spec_sum_out x 0 (range 1 n) = Z.of_nat salesmen)
         ∧ (holds x (depot_in n salesmen)
            ↔ spec_sum_in x 0 (range 1 n) = Z.of_nat salesmen)
         ∧ ∀ i,
             (holds x (leave_once n i)
                ↔ spec_sum_out x i (filter (λ j, i ≠ j) (range 0 n)) = 1)
             ∧ (holds x (enter_once n i)
                ↔ spec_sum_in x i (filter (λ j, i ≠ j) (range 0 n)) = 1))
    ∧ (∀ x, feasible x m →
         outdeg (select n x) 0 = salesmen
         ∧ indeg (select n x) 0 = salesmen
         ∧ ∀ i, (1 ≤ i < n)%nat →
             outdeg (select n x) i = 1%nat ∧ indeg (select n x) i = 1%nat).
Proof.
  intros Hsq _ _ n.
  destruct (formulate_square cost salesmen min_cities max_cities output_flag time_limit Hsq)
    as [m Hm].
  exists m. split; [done|].
  assert (Hdeg : ∀ c, c ∈ degree_constrs n salesmen → c ∈ constrs m).
  { intros c Hc. pose proof Hm as (_ & _ & _ & _ & ->)%formulate_Some.
    apply elem_of_app. by left. }
  split_and!.
  - apply Hdeg, elem_of_degree_constrs. by left.
  - apply Hdeg, elem_of_degree_constrs. right. by left.
  - intros i Hi. split; apply Hdeg, elem_of_degree_constrs.
    + right; right; left. by exists i.
    + right; right; right. by exists i.
  - intros x. unfold holds, spec_sum_out, spec_sum_in. simpl.
    split_and!; [by rewrite eval_quicksum..|].
    intros i. by rewrite !eval_quicksum.
  - intros x Hx.
    pose proof (feasible_outdeg _ _ _ _ _ _ _ _ Hm Hx) as Hout.
    pose proof (feasible_indeg _ _ _ _ _ _ _ _ Hm Hx) as Hin.
    unfold degree_of in Hout, Hin. split_and!.
    + by rewrite Hout, decide_True.
    + by rewrite Hin, decide_True.
    + intros i Hi. rewrite Hout, Hin.
      rewrite !decide_False by lia. by rewrite !decide_True by lia.
Qed.

Lemma degree_constraints_witness :
  ∃ m,
    formulate cost5 2 None None None None = Some m
    ∧ depot_out 5 2 ∈ constrs m
    ∧ outdeg (select 5 tours5) 0 = 2%nat
    ∧ indeg (select 5 tours5) 0 = 2%nat
    ∧ outdeg (select 5 tours5) 3 = 1%nat
    ∧ indeg (select 5 tours5) 3 = 1%nat.
Proof.
  destruct (degree_constraints cost5 2 None None None None square_cost5)
    as (m & Hm & Hout & _ & _ & _ & Hdeg).
  - simpl. lia.
  - lia.
  - assert (Hx : feasible tours5 m).
    { vm_compute in Hm. injection Hm as <-.
      apply (bool_decide_unpack _). vm_compute. reflexivity. }
    destruct (Hdeg tours5 Hx) as (H0o & H0i & Hi).
    destruct (Hi 3%nat) as [H3o H3i]; [simpl; lia|].
    by exists m.
Defined.

(** C3.  With one salesman and a feasible assignment returned by the
    optimiser, [mtsp_solver] returns a single route; it has as many entries
    as there are nodes, starts at the depot, lists every node [0 .. n-1]
    exactly once, and its last node has a selected edge back to the depot
    (which is not listed again). *)
Theorem single_salesman_cycle {Cost : Type}
    (optimize : Model Cost → option (Assignment * Cost)) (cost : Matrix Cost)
    (min_cities max_cities output_flag time_limit : option Z)
    (m : Model Cost) (x : Assignment) (objVal : Cost) (fuel : nat) :
  square cost →
  formulate cost 1 min_cities max_cities output_flag time_limit = Some m →
  optimize m = Some (x, objVal) →
  feasible x m →
  (length cost < fuel)%nat →
  ∃ route s',
    mtsp_solver optimize fuel 1 min_cities max_cities output_flag time_limit (call cost)
    = Return ([route], objVal, m) s'
    ∧ length route = length cost
    ∧ head route = Some 0%nat
    ∧ route ≡ₚ range 0 (length cost)
    ∧ ∃ v, last route = Some v ∧ (v, 0%nat) ∈ select (length cost) x.
Proof.
  intros _ Hm Hopt Hx Hfuel.
  pose proof (length_select_feasible _ _ _ _ _ _ _ _ Hm Hx) as Hlen.
  assert (Hn : (0 < length cost)%nat).
  { destruct (length cost) eqn:En; [|lia]. by simpl in Hlen. }
  destruct (mtsp_solver_feasible optimize _ _ _ _ _ _ _ _ _ fuel Hm Hopt Hx)
    as (rs & Hrun & Hone & Hhd & Hedges & Hnodes); [lia|].
  destruct rs as [|route [|? ?]]; try done.
  apply Forall_cons in Hhd as [Hhd _].
  simpl in Hedges, Hnodes. rewrite app_nil_r in Hedges, Hnodes.
  assert (Hrange : route ≡ₚ range 0 (length cost)).
  { destruct (range_0_cases (length cost)) as [(? & _)|(_ & ->)]; [lia|done]. }
  eexists route, _. split_and!; [done| |done|done|].
  - rewrite Hrange. unfold range. rewrite length_seq. lia.
  - destruct (last route) as [v|] eqn:Hlast.
    + exists v. split; [done|]. apply last_Some in Hlast as [r0 ->].
      rewrite <- Hedges, closed_edges_last. apply elem_of_app. right. left.
    + apply last_None in Hlast. by subst route.
Qed.

Lemma single_salesman_cycle_witness :
  ∃ m route s',
    formulate cost3 1 None None None None = Some m
    ∧ mtsp_solver (fixed_solver tour3 12) 4 1 None None None None (call cost3)
      = Return ([route], 12, m) s'
    ∧ length route = 3%nat
    ∧ head route = Some 0%nat
    ∧ route ≡ₚ [0; 1; 2]%nat
    ∧ ∃ v, last route = Some v ∧ (v, 0%nat) ∈ select 3 tour3.
Proof.
  destruct (formulate cost3 1 None None None None) as [m|] eqn:Hm;
    [|by vm_compute in Hm].
  assert (Hx : feasible tour3 m).
  { vm_compute in Hm. injection Hm as <-.
    apply (bool_decide_unpack _). vm_compute. reflexivity. }
  destruct (single_salesman_cycle (fixed_solver tour3 12) cost3 None None None None
              m tour3 12 4 square_cost3 Hm) as (route & s' & H).
  - unfold fixed_solver. by rewrite decide_True.
  - done.
  - simpl. lia.
  - by exists m, route, s'.
Defined.

(** C4, as amended.  With [k > 1] salesmen and a feasible assignment returned
    by the optimiser, [mtsp_solver] returns [k] routes; each starts at the
    depot and goes on to at least one other node; the parts after the depot
    list every node [1 .. n-1] exactly once; and the lengths of the routes
    add up to [n + k - 1], the depot being listed once in each route. *)
Theorem salesmen_routes_partition {Cost : Type}
    (optimize : Model Cost → option (Assignment * Cost)) (cost : Matrix Cost)
    (salesmen : nat) (min_cities max_cities output_flag time_limit : option Z)
    (m : Model Cost) (x : Assignment) (objVal : Cost) (fuel : nat) :
  square cost →
  (1 < salesmen)%nat →
  formulate cost salesmen min_cities max_cities output_flag time_limit = Some m →
  optimize m = Some (x, objVal) →
  feasible x m →
  (salesmen + length cost ≤ fuel)%nat →
  ∃ rs s',
    mtsp_solver optimize fuel salesmen min_cities max_cities output_flag time_limit
      (call cost)
    = Return (rs, objVal, m) s'
    ∧ length rs = salesmen
    ∧ Forall (λ r, head r = Some 0%nat ∧ tail r ≠ []) rs
    ∧ concat (tail <$> rs) ≡ₚ range 1 (length cost)
    ∧ sum_list_with length rs = (length cost + salesmen - 1)%nat.
Proof.
  intros _ Hk Hm Hopt Hx Hfuel.
  pose proof (length_select_feasible _ _ _ _ _ _ _ _ Hm Hx) as Hlen.
  assert (Hn : (0 < length cost)%nat).
  { destruct (length cost) eqn:En; [|lia]. simpl in Hlen. lia. }
  destruct (mtsp_solver_feasible optimize _ _ _ _ _ _ _ _ _ fuel Hm Hopt Hx)
    as (rs & Hrun & Hcount & Hhd & Hedges & Hnodes); [lia|].
  eexists rs, _. split_and!; [done|done| | |].
  - apply Forall_forall. intros r Hr. rewrite Forall_forall in Hhd.
    split; [by apply Hhd|]. intros Htl.
    specialize (Hhd r Hr). destruct r as [|a [|b r]]; try done.
    simpl in Hhd. injection Hhd as ->.
    assert (Hloop : (0%nat, 0%nat) ∈ select (length cost) x).
    { rewrite <- Hedges. apply (elem_of_closed_edges _ [0%nat]); [done|left]. }
    apply elem_of_select in Hloop as (_ & _ & Hv).
    pose proof (bounds_e _ _ _ _ _ _ _ x 0%nat 0%nat Hm (proj1 Hx) Hn Hn) as Hb.
    rewrite decide_True in Hb by done. lia.
  - rewrite (concat_heads rs Hhd), Hcount in Hnodes.
    by apply (inj (app (replicate salesmen 0%nat))) in Hnodes.
  - rewrite sum_lengths, Hnodes, length_app, length_replicate.
    unfold range. rewrite length_seq. lia.
Qed.

Lemma salesmen_routes_partition_witness :
  ∃ m rs s',
    formulate cost5 2 None None None None = Some m
    ∧ mtsp_solver (fixed_solver tours5 8) 7 2 None None None None (call cost5)
      = Return (rs, 8, m) s'
    ∧ length rs = 2%nat
    ∧ Forall (λ r, head r = Some 0%nat ∧ tail r ≠ []) rs
    ∧ concat (tail <$> rs) ≡ₚ [1; 2; 3; 4]%nat
    ∧ sum_list_with length rs = 6%nat.
Proof.
  destruct (formulate cost5 2 None None None None) as [m|] eqn:Hm;
    [|by vm_compute in Hm].
  assert (Hx : feasible tours5 m).
  { vm_compute in Hm. injection Hm as <-.
    apply (bool_decide_unpack _). vm_compute. reflexivity. }
  destruct (salesmen_routes_partition (fixed_solver tours5 8) cost5 2 None None None None
              m tours5 8 7 square_cost5) as (rs & s' & H).
  - lia.
  - done.
  - unfold fixed_solver. by rewrite decide_True.
  - done.
  - simpl. lia.
  - by exists m, rs, s'.
Defined.

(** C4 as stated fails: on five nodes with two salesmen the two routes have
    lengths that add up to six, not to five. *)
Lemma route_lengths_counterexample :
  ∃ m,
    formulate cost5 2 None None None None = Some m
    ∧ feasible tours5 m
    ∧ mtsp_solver (fixed_solver tours5 8) 7 2 None None None None (call cost5)
      = Return ([[0; 1; 2]; [0; 3; 4]]%nat, 8, m)
          {| st_cost := cost5; st_model := Some m; st_selected := [];
             st_routes := [[0; 1; 2]; [0; 3; 4]]%nat |}
    ∧ sum_list_with length [[0; 1; 2]; [0; 3; 4]]%nat ≠ length cost5.
Proof.
  eexists. split; [vm_compute; reflexivity|].
  split; [apply (bool_decide_unpack _); vm_compute; reflexivity|].
  split; [vm_compute; reflexivity|]. vm_compute. lia.
Qed.

(** C5.  There is an assignment, such as a search cut short could leave
    behind, whose selected edges do not form closed walks through the depot
    and on which the loop of [mtsp_solver] never ends: whatever the bound on
    the number of iterations, the loop is still running when it is reached,
    and so is the call. *)
Theorem extraction_may_not_terminate :
  ∃ (salesmen : nat) (S : list (nat * nat)),
    S = select (length cost2) cut_short2
    ∧ ¬ closed_walks salesmen S
    ∧ (∀ fuel, extract fuel salesmen S = inl OutOfFuel)
    ∧ ∀ fuel,
        mtsp_solver (λ _, Some (cut_short2, 1)) fuel salesmen None None None None
          (call cost2)
        = Diverge.
Proof.
  assert (H : ∀ f, while_not_finished f 0
            {| routes := [[0%nat]]; next_city := 1; selected := [] |}
          = inl OutOfFuel).
  { induction f as [|f IH]; [done|]. simpl. apply IH. }
  assert (Hloop : ∀ fuel, extract fuel 1 [(0, 1)]%nat = inl OutOfFuel).
  { intros [|fuel]; [done|]. apply H. }
  exists 1%nat, [(0, 1)]%nat. split_and!.
  - reflexivity.
  - intros (ws & Hk & Hhd & _ & HS).
    pose proof (closed_walks_balanced ws _ Hhd HS 0%nat) as Hb.
    vm_compute in Hb. done.
  - done.
  - intros fuel. unfold mtsp_solver, extraction.
    destruct (formulate _ _ _ _ _ _) as [m|] eqn:Hm; [|by vm_compute in Hm].
    cbn [st_cost st_model st_selected st_routes call read_X].
    change (select (length cost2) cut_short2) with [(0, 1)]%nat.
    by rewrite Hloop.
Qed.

(** C6, as amended.  On a [1 × 1] cost matrix with at least one salesman the
    model has no feasible assignment, so an optimiser that only returns
    feasible assignments returns none, and [mtsp_solver] returns neither a
    route nor an objective value: it raises when it reads the solution. *)
Theorem depot_only_fails {Cost : Type}
    (optimize : Model Cost → option (Assignment * Cost)) (c : Cost) (salesmen : nat)
    (min_cities max_cities output_flag time_limit : option Z) (fuel : nat) :
  sound optimize →
  (1 ≤ salesmen)%nat →
  ∃ m,
    formulate [[c]] salesmen min_cities max_cities output_flag time_limit = Some m
    ∧ (∀ x, ¬ feasible x m)
    ∧ mtsp_solver optimize fuel salesmen min_cities max_cities output_flag time_limit
        (call [[c]])
      = Raise GurobiError
          {| st_cost := [[c]]; st_model := Some m; st_selected := []; st_routes := [] |}.
Proof. apply depot_only_raises. Qed.

Lemma depot_only_fails_witness :
  ∃ m,
    formulate [[0]] 1 None None None None = Some m
    ∧ (∀ x, ¬ feasible x m)
    ∧ mtsp_solver (fixed_solver (λ _, 0) 0) 1 1 None None None None (call [[0]])
      = Raise GurobiError
          {| st_cost := [[0]]; st_model := Some m; st_selected := []; st_routes := [] |}.
Proof.
  apply (depot_only_fails (fixed_solver (λ _, 0) 0) 0 1 None None None None 1).
  - apply fixed_solver_sound.
  - lia.
Defined.

(** C6 as stated fails: on the cost matrix [[0]] with one salesman, no
    optimiser that only returns feasible assignments makes [mtsp_solver]
    return. *)
Lemma depot_only_counterexample :
  ¬ ∃ (optimize : Model Z → option (Assignment * Z)) fuel r s,
      sound optimize
      ∧ mtsp_solver optimize fuel 1 None None None None (call [[0]]) = Return r s.
Proof.
  intros (optimize & fuel & r & s & Hsound & Hret).
  destruct (depot_only_raises optimize 0 1 None None None None fuel Hsound)
    as (m & _ & _ & Hraise); [lia|].
  rewrite Hraise in Hret. discriminate.
Qed.

(** C7.  In a model that was built, every variable [e[i, i]] has the upper
    bound 0, and no assignment within the bounds of the variables has a pair
    [(i, i)] among its selected edges. *)
Theorem no_self_loop_selected {Cost : Type} (cost : Matrix Cost)
    (salesmen : nat) (min_cities max_cities output_flag time_limit : option Z)
    (m : Model Cost) (x : Assignment) :
  formulate cost salesmen min_cities max_cities output_flag time_limit = Some m →
  respects_bounds x m →
  (∀ i, (i < length cost)%nat → ub <$> _vars m !! (i, i) = Some 0)
  ∧ ∀ i, (i, i) ∉ select (length cost) x.
Proof.
  intros Hm Hb. split.
  - intros i Hi.
    pose proof Hm as (ev & Hev & -> & _ & _)%formulate_Some.
    unfold create_e_vars in Hev.
    destruct (foldl_add_e_var _ _ _ _ Hev (i, i)) as [Hin _].
    destruct Hin as [c Hc]; [by apply elem_of_index_pairs|].
    rewrite forbid_loops_lookup, decide_True by done. by rewrite Hc.
  - intros i (Hi & _ & Hv)%elem_of_select.
    pose proof (bounds_e _ _ _ _ _ _ _ x i i Hm Hb Hi Hi) as Hbi.
    rewrite decide_True in Hbi by done. lia.
Qed.

Lemma no_self_loop_selected_witness :
  ∃ m,
    formulate cost3 1 None None None None = Some m
    ∧ respects_bounds tour3 m
    ∧ (∀ i, (i < 3)%nat → ub <$> _vars m !! (i, i) = Some 0)
    ∧ ∀ i, (i, i) ∉ select 3 tour3.
Proof.
  destruct (formulate cost3 1 None None None None) as [m|] eqn:Hm;
    [|by vm_compute in Hm].
  assert (Hb : respects_bounds tour3 m).
  { vm_compute in Hm. injection Hm as <-.
    apply (bool_decide_unpack _). vm_compute. reflexivity. }
  exists m. split; [done|]. split; [done|].
  apply (no_self_loop_selected cost3 1 None None None None m tour3 Hm Hb).
Defined.

(** C8, as amended.  For an [n × dims] array of float64 coordinates,
    [calculate_distances] returns an [n × n] matrix whose entry [(i, j)] is
    the norm, taken in float64, of the difference of node [i] and node [j]:
    their Euclidean distance as floating-point arithmetic computes it.  The
    entries [(i, j)] and [(j, i)] are the same float, the same number or NaN
    both, and the entry [(i, i)] is zero when the coordinates of node [i] are
    finite. *)
Theorem calculate_distances_symmetric (nodes : list (list float)) (dims : nat) :
  Forall (λ row, length row = dims) nodes →
  let n := length nodes in
  let distances := calculate_distances float64 nodes in
  length distances = n
  ∧ Forall (λ row, length row = n) distances
  ∧ ∀ i j, (i < n)%nat → (j < n)%nat →
      entry distances i j
      = Some (norm float64 (vsub float64 (nodes !!! i) (nodes !!! j)))
      ∧ entry distances i j = entry distances j i
      ∧ (Forall (λ t, is_finite t = true) (nodes !!! i) →
         entry distances i i = Some 0%float).
Proof.
  intros _ n distances.
  destruct (shape_calculate_distances float64 nodes) as [Hl Hr].
  split; [done|]. split; [done|].
  intros i j Hi Hj. unfold distances.
  rewrite !entry_calculate_distances by done.
  split_and!; [done| |].
  - by rewrite norm_vsub_comm.
  - intros Hfin. by rewrite norm_vsub_diag.
Qed.

Lemma calculate_distances_symmetric_witness :
  let nodes := [[0; 0]; [3; 4]; [6; 8]]%float in
  length (calculate_distances float64 nodes) = 3%nat
  ∧ Forall (λ row, length row = 3%nat) (calculate_distances float64 nodes)
  ∧ ∀ i j, (i < 3)%nat → (j < 3)%nat →
      entry (calculate_distances float64 nodes) i j
      = Some (norm float64 (vsub float64 (nodes !!! i) (nodes !!! j)))
      ∧ entry (calculate_distances float64 nodes) i j
        = entry (calculate_distances float64 nodes) j i
      ∧ (Forall (λ t, is_finite t = true) (nodes !!! i) →
         entry (calculate_distances float64 nodes) i i = Some 0%float).
Proof.
  apply (calculate_distances_symmetric [[0; 0]; [3; 4]; [6; 8]]%float 2).
  repeat constructor.
Defined.

(** C8 as stated fails.  On the uint8 array [[0, 0], [3, 4]] the difference
    of node 0 and node 1 wraps around to [253, 252]: the entry [(0, 1)] is
    [sqrt 127513], about 357.09, where the entry [(1, 0)] is 5.  On a float64 array with an infinite
    coordinate the diagonal is NaN. *)
Lemma wrapped_difference_counterexample :
  vsub uint8 [0; 0] [3; 4] = [253; 252]
  ∧ entry (calculate_distances uint8 [[0; 0]; [3; 4]]) 0 1
    = Some (PrimFloat.sqrt 127513)
  ∧ entry (calculate_distances uint8 [[0; 0]; [3; 4]]) 1 0 = Some 5%float
  ∧ (357 <? PrimFloat.sqrt 127513)%float = true
  ∧ entry (calculate_distances uint8 [[0; 0]; [3; 4]]) 0 1
    ≠ entry (calculate_distances uint8 [[0; 0]; [3; 4]]) 1 0
  ∧ entry (calculate_distances float64 [[infinity; 0%float]]) 0 0 = Some nan.
Proof.
  split; [reflexivity|].
  split; [vm_compute; reflexivity|].
  split; [vm_compute; reflexivity|].
  split; [vm_compute; reflexivity|].
  split; [|vm_compute; reflexivity].
  vm_compute. by intros [=].
Qed.

(** C9, as amended.  When the selected edges are those of [salesmen]
    edge-disjoint closed walks through the depot, each of which passes
    through the depot at its two ends only, and no cycle of selected edges
    avoids the depot, the extraction ends with an empty working list and
    returns one route per salesman; the edges followed by the routes are the
    selected edges, each followed once, and no edge is followed in two
    routes. *)
Theorem extraction_consumes_every_edge (salesmen : nat) (S : list (nat * nat))
    (fuel : nat) :
  closed_tours salesmen S →
  no_cycle_off_depot S →
  (length S < fuel)%nat →
  ∃ rs,
    extract fuel salesmen S = inr {| routes := rs; next_city := 0; selected := [] |}
    ∧ length rs = salesmen
    ∧ concat (closed_edges <$> rs) ≡ₚ S
    ∧ NoDup (concat (closed_edges <$> rs)).
Proof.
  intros (ws & Hk & Hws & Hnd & HS) [rank Hrk] Hfuel.
  assert (Hhd : Forall (λ w, head w = Some 0%nat) ws).
  { eapply Forall_impl; [exact Hws|]. by intros w [? _]. }
  assert (Htl : Forall (λ w, 0%nat ∉ tail w) ws).
  { eapply Forall_impl; [exact Hws|]. by intros w [_ ?]. }
  destruct (extract_closed_routes rank S salesmen fuel) as (rs & Hex & Hlen & _ & Hperm).
  - by eapply closed_walks_balanced.
  - done.
  - by eapply closed_tours_depot.
  - done.
  - exists rs. split_and!; [done|done|done|]. by rewrite Hperm, HS.
Qed.

Lemma extraction_consumes_every_edge_witness :
  ∃ rs,
    extract 7 2 [(0, 1); (0, 3); (1, 2); (2, 0); (3, 4); (4, 0)]%nat
    = inr {| routes := rs; next_city := 0; selected := [] |}
    ∧ length rs = 2%nat
    ∧ concat (closed_edges <$> rs)
      ≡ₚ [(0, 1); (0, 3); (1, 2); (2, 0); (3, 4); (4, 0)]%nat
    ∧ NoDup (concat (closed_edges <$> rs)).
Proof.
  apply (extraction_consumes_every_edge 2).
  - exists [[0; 1; 2]; [0; 3; 4]]%nat. split_and!.
    + reflexivity.
    + apply (bool_decide_unpack _). vm_compute. reflexivity.
    + apply (bool_decide_unpack _). vm_compute. reflexivity.
    + apply (bool_decide_unpack _). vm_compute. reflexivity.
  - exists Z.of_nat. intros i j Hin Hi Hj.
    repeat (apply elem_of_cons in Hin as [[= -> ->]|Hin]; [lia|]).
    by apply elem_of_nil in Hin.
  - simpl. lia.
Defined.

(** C9 as stated fails.  The edges of the closed walk 0 → 1 → 2 → 1 → 0 are
    not all consumed: the loop takes the first edge that leaves node 1 and is
    back at the depot after two edges.  The edges of the closed walk
    0 → 1 → 0 → 2 → 0 are not all consumed either: the loop stops at the
    first return to the depot. *)
Lemma closed_walk_counterexample :
  (closed_walks 1 [(0, 1); (1, 0); (1, 2); (2, 1)]%nat
   ∧ ∀ fuel w, extract fuel 1 [(0, 1); (1, 0); (1, 2); (2, 1)]%nat = inr w →
       routes w = [[0; 1]]%nat ∧ selected w = [(1, 2); (2, 1)]%nat)
  ∧ (closed_walks 1 [(0, 1); (0, 2); (1, 0); (2, 0)]%nat
     ∧ ∀ fuel w, extract fuel 1 [(0, 1); (0, 2); (1, 0); (2, 0)]%nat = inr w →
         routes w = [[0; 1]]%nat ∧ selected w = [(0, 2); (2, 0)]%nat).
Proof.
  split; split.
  - exists [[0; 1; 2; 1]]%nat. split_and!.
    + reflexivity.
    + by repeat constructor.
    + apply (bool_decide_unpack _). vm_compute. reflexivity.
    + apply (bool_decide_unpack _). vm_compute. reflexivity.
  - intros [|[|fuel]] w; [done..|]. by intros [= <-].
  - exists [[0; 1; 0; 2]]%nat. split_and!.
    + reflexivity.
    + by repeat constructor.
    + apply (bool_decide_unpack _). vm_compute. reflexivity.
    + apply (bool_decide_unpack _). vm_compute. reflexivity.
  - intros [|[|fuel]] w; [done..|]. by intros [= <-].
Qed.

(** C10, as amended.  A call of [mtsp_solver] that ends, by returning or by
    raising, leaves the cost matrix as it found it; and the extraction phase
    leaves the cost matrix and the model unchanged: what it changes are the
    two lists the call has created, the selected edges and the routes. *)
Theorem cost_matrix_unchanged {Cost : Type}
    (optimize : Model Cost → option (Assignment * Cost)) (fuel salesmen : nat)
    (min_cities max_cities output_flag time_limit : option Z)
    (x : Assignment) (s : State Cost) :
  match mtsp_solver optimize fuel salesmen min_cities max_cities output_flag time_limit s
  with
  | Return _ s' | Raise _ s' => st_cost s' = st_cost s
  | Diverge => True
  end
  ∧ match extraction fuel salesmen x s with
    | inr s' => st_cost s' = st_cost s ∧ st_model s' = st_model s
    | inl _ => True
    end.
Proof.
  split.
  - unfold mtsp_solver.
    destruct (formulate _ _ _ _ _ _) as [m|]; [|done].
    destruct (read_X m (optimize m)) as [x'|]; [|done].
    unfold extraction. cbn [st_cost st_model st_selected st_routes].
    destruct (extract _ _ _) as [[e|]|w]; [done..|].
    by destruct (optimize m) as [[? objVal]|].
  - unfold extraction. cbn [st_cost st_model st_selected st_routes].
    by destruct (extract _ _ _) as [e|w].
Qed.

(** C10 as stated fails: the extraction phase changes the list of routes as
    well as the list of selected edges.  On the three-node tour the list
    [routes], created empty, holds a route at the end, and the list
    [selected], created with three edges, is empty. *)
Lemma routes_mutated_counterexample :
  ∃ s',
    extraction 4 1 tour3 (call cost3) = inr s'
    ∧ st_cost s' = st_cost (call cost3)
    ∧ st_selected s' ≠ select 3 tour3
    ∧ st_routes s' ≠ st_routes (call cost3).
Proof.
  exists {| st_cost := cost3; st_model := None; st_selected := [];
            st_routes := [[0; 1; 2]]%nat |}.
  split_and!; [reflexivity|reflexivity|done|done].
Qed.

(** * Further properties of the program *)

(** X1.  Every route that [mtsp_solver] returns for a feasible assignment
    visits, after the depot, at least two nodes, at least [min_cities]
    (2 when it is not given) and at most [max_cities] (the number of nodes
    when it is not given). *)
Theorem routes_within_city_bounds {Cost : Type}
    (optimize : Model Cost → option (Assignment * Cost)) (cost : Matrix Cost)
    (salesmen : nat) (min_cities max_cities output_flag time_limit : option Z)
    (m : Model Cost) (x : Assignment) (objVal : Cost) (fuel : nat) :
  formulate cost salesmen min_cities max_cities output_flag time_limit = Some m →
  optimize m = Some (x, objVal) →
  feasible x m →
  (salesmen + length cost < fuel)%nat →
  ∃ rs s',
    mtsp_solver optimize fuel salesmen min_cities max_cities output_flag time_limit
      (call cost)
    = Return (rs, objVal, m) s'
    ∧ Forall (λ r, (2 ≤ length (tail r))%nat
                   ∧ default 2 min_cities ≤ Z.of_nat (length (tail r))
                     ≤ default (Z.of_nat (length cost)) max_cities) rs.
Proof.
  intros Hm Hopt Hx Hfuel.
  destruct (mtsp_solver_routes optimize _ _ _ _ _ _ _ _ _ fuel Hm Hopt Hx Hfuel)
    as (rs & Hrun & _ & Hhd & Hedges & Hnodes).
  eexists rs, _. split; [done|].
  apply Forall_forall. intros r Hr.
  destruct (feasible_route_bounds _ _ _ _ _ _ _ _ Hm Hx rs r Hhd Hedges Hnodes Hr)
    as (_ & HKL & H2).
  done.
Qed.

Lemma routes_within_city_bounds_witness :
  ∃ m rs s',
    formulate cost5 2 (Some 1) (Some 3) None None = Some m
    ∧ mtsp_solver (fixed_solver tours5 8) 8 2 (Some 1) (Some 3) None None (call cost5)
      = Return (rs, 8, m) s'
    ∧ Forall (λ r, (2 ≤ length (tail r))%nat ∧ 1 ≤ Z.of_nat (length (tail r)) ≤ 3) rs.
Proof.
  destruct (formulate cost5 2 (Some 1) (Some 3) None None) as [m|] eqn:Hm;
    [|by vm_compute in Hm].
  assert (Hx : feasible tours5 m).
  { vm_compute in Hm. injection Hm as <-.
    apply (bool_decide_unpack _). vm_compute. reflexivity. }
  destruct (routes_within_city_bounds (fixed_solver tours5 8) cost5 2 (Some 1) (Some 3)
              None None m tours5 8 8 Hm) as (rs & s' & H).
  - unfold fixed_solver. by rewrite decide_True.
  - done.
  - simpl. lia.
  - by exists m, rs, s'.
Defined.

(** X2.  In a feasible assignment the value of [u] at a node other than the
    depot is the position of the node in the route that [mtsp_solver]
    returns for it, the depot being at position 0. *)
Theorem u_is_position_in_route {Cost : Type}
    (optimize : Model Cost → option (Assignment * Cost)) (cost : Matrix Cost)
    (salesmen : nat) (min_cities max_cities output_flag time_limit : option Z)
    (m : Model Cost) (x : Assignment) (objVal : Cost) (fuel : nat) :
  formulate cost salesmen min_cities max_cities output_flag time_limit = Some m →
  optimize m = Some (x, objVal) →
  feasible x m →
  (salesmen + length cost < fuel)%nat →
  ∃ rs s',
    mtsp_solver optimize fuel salesmen min_cities max_cities output_flag time_limit
      (call cost)
    = Return (rs, objVal, m) s'
    ∧ ∀ r k v, r ∈ rs → r !! k = Some v →
        (k = 0%nat ∧ v = 0%nat) ∨ ((0 < k)%nat ∧ x (u_var v) = Z.of_nat k).
Proof.
  intros Hm Hopt Hx Hfuel.
  destruct (mtsp_solver_routes optimize _ _ _ _ _ _ _ _ _ fuel Hm Hopt Hx Hfuel)
    as (rs & Hrun & _ & Hhd & Hedges & Hnodes).
  eexists rs, _. split; [done|].
  intros r k v Hr Hk.
  destruct (feasible_route_bounds _ _ _ _ _ _ _ _ Hm Hx rs r Hhd Hedges Hnodes Hr)
    as (Hpos & _ & _).
  rewrite Forall_forall in Hhd. specialize (Hhd r Hr).
  destruct r as [|a t]; [done|]. injection Hhd as ->.
  destruct k as [|k]; simpl in Hk.
  - left. by injection Hk as <-.
  - right. split; [lia|]. rewrite (Hpos k v Hk). lia.
Qed.

Lemma u_is_position_in_route_witness :
  ∃ m rs s',
    formulate cost5 2 None None None None = Some m
    ∧ mtsp_solver (fixed_solver tours5 8) 8 2 None None None None (call cost5)
      = Return (rs, 8, m) s'
    ∧ ∀ r k v, r ∈ rs → r !! k = Some v →
        (k = 0%nat ∧ v = 0%nat) ∨ ((0 < k)%nat ∧ tours5 (u_var v) = Z.of_nat k).
Proof.
  destruct (formulate cost5 2 None None None None) as [m|] eqn:Hm;
    [|by vm_compute in Hm].
  assert (Hx : feasible tours5 m).
  { vm_compute in Hm. injection Hm as <-.
    apply (bool_decide_unpack _). vm_compute. reflexivity. }
  destruct (u_is_position_in_route (fixed_solver tours5 8) cost5 2 None None
              None None m tours5 8 8 Hm) as (rs & s' & H).
  - unfold fixed_solver. by rewrite decide_True.
  - done.
  - simpl. lia.
  - by exists m, rs, s'.
Defined.

(** X3.  A model built for at least one salesman has a feasible assignment
    only if the nodes other than the depot can be shared out: at least two,
    and at least [min_cities], per salesman, and at most [max_cities] per
    salesman. *)
Theorem feasible_needs_enough_nodes {Cost : Type} (cost : Matrix Cost)
    (salesmen : nat) (min_cities max_cities output_flag time_limit : option Z)
    (m : Model Cost) (x : Assignment) :
  formulate cost salesmen min_cities max_cities output_flag time_limit = Some m →
  feasible x m →
  (1 ≤ salesmen)%nat →
  let n := Z.of_nat (length cost) in
  let K := default 2 min_cities in
  let L := default n max_cities in
  2 * Z.of_nat salesmen ≤ n - 1
  ∧ K * Z.of_nat salesmen ≤ n - 1 ≤ L * Z.of_nat salesmen.
Proof. apply enough_nodes. Qed.

Lemma feasible_needs_enough_nodes_witness :
  ∃ m,
    formulate cost5 2 None None None None = Some m
    ∧ feasible tours5 m
    ∧ 2 * 2 ≤ 5 - 1 ∧ 2 * 2 ≤ 5 - 1 ≤ 5 * 2.
Proof.
  destruct (formulate cost5 2 None None None None) as [m|] eqn:Hm;
    [|by vm_compute in Hm].
  assert (Hx : feasible tours5 m).
  { vm_compute in Hm. injection Hm as <-.
    apply (bool_decide_unpack _). vm_compute. reflexivity. }
  exists m. split; [done|]. split; [done|].
  apply (feasible_needs_enough_nodes cost5 2 None None None None m tours5 Hm Hx).
  lia.
Defined.

(** X4.  When the nodes other than the depot cannot be shared out in this
    way, as on two nodes, a call whose optimiser only returns feasible
    assignments builds the model and never returns: it raises.  On an array
    with a row it raises when it reads the solution, before any route is
    made; on the array without rows there is no variable to read, the loop
    makes an empty route for every salesman, and the call raises when it
    reads the objective value. *)
Theorem too_few_nodes_raises {Cost : Type}
    (optimize : Model Cost → option (Assignment * Cost)) (cost : Matrix Cost)
    (salesmen : nat) (min_cities max_cities output_flag time_limit : option Z)
    (fuel : nat) :
  sound optimize →
  square cost →
  (1 ≤ salesmen)%nat →
  (0 < fuel)%nat →
  Z.of_nat (length cost) - 1 < 2 * Z.of_nat salesmen
  ∨ Z.of_nat (length cost) - 1 < default 2 min_cities * Z.of_nat salesmen
  ∨ default (Z.of_nat (length cost)) max_cities * Z.of_nat salesmen
    < Z.of_nat (length cost) - 1 →
  ∃ m,
    formulate cost salesmen min_cities max_cities output_flag time_limit = Some m
    ∧ mtsp_solver optimize fuel salesmen min_cities max_cities output_flag time_limit
        (call cost)
      = match cost with
        | _ :: _ =>
            Raise GurobiError
              {| st_cost := cost; st_model := Some m; st_selected := [];
                 st_routes := [] |}
        | [] =>
            Raise AttributeError
              {| st_cost := cost; st_model := Some m; st_selected := [];
                 st_routes := replicate salesmen [] |}
        end.
Proof.
  intros Hsound Hsq Hk Hfuel Hfew.
  destruct (formulate_square cost salesmen min_cities max_cities output_flag time_limit Hsq)
    as [m Hm].
  exists m. split; [done|].
  apply no_solution_raises; [done|done|].
  destruct (optimize m) as [[x objVal]|] eqn:Hopt; [|done].
  exfalso. apply Hsound in Hopt.
  pose proof (enough_nodes cost salesmen min_cities max_cities
                output_flag time_limit m x Hm Hopt Hk) as H.
  simpl in H. lia.
Qed.

Lemma too_few_nodes_raises_witness :
  (∃ m,
    formulate cost2 1 None None None None = Some m
    ∧ mtsp_solver (fixed_solver cut_short2 1) 3 1 None None None None (call cost2)
      = Raise GurobiError
          {| st_cost := cost2; st_model := Some m; st_selected := []; st_routes := [] |})
  ∧ ∃ m,
    formulate [] 2 None None None None = Some m
    ∧ mtsp_solver (fixed_solver cut_short2 1) 3 2 None None None None (call [])
      = Raise AttributeError
          {| st_cost := []; st_model := Some m; st_selected := [];
             st_routes := [[]; []] |}.
Proof.
  split.
  - apply (too_few_nodes_raises (fixed_solver cut_short2 1) cost2 1
             None None None None 3).
    + apply fixed_solver_sound.
    + by repeat constructor.
    + lia.
    + lia.
    + left. simpl. lia.
  - apply (too_few_nodes_raises (fixed_solver cut_short2 1) [] 2
             None None None None 3).
    + apply fixed_solver_sound.
    + by repeat constructor.
    + lia.
    + lia.
    + left. simpl. lia.
Defined.

(** X5.  A feasible assignment selects [salesmen + n - 1] edges: one out of
    every node other than the depot, and one per salesman out of the
    depot. *)
Theorem selected_edge_count {Cost : Type} (cost : Matrix Cost)
    (salesmen : nat) (min_cities max_cities output_flag time_limit : option Z)
    (m : Model Cost) (x : Assignment) :
  formulate cost salesmen min_cities max_cities output_flag time_limit = Some m →
  feasible x m →
  length (select (length cost) x) = (salesmen + (length cost - 1))%nat
  ∧ (select (length cost) x).*1 = replicate salesmen 0%nat ++ range 1 (length cost).
Proof.
  intros Hm Hx. split.
  - by eapply length_select_feasible.
  - by eapply feasible_fst.
Qed.

Lemma selected_edge_count_witness :
  ∃ m,
    formulate cost5 2 None None None None = Some m
    ∧ length (select 5 tours5) = 6%nat
    ∧ (select 5 tours5).*1 = [0; 0; 1; 2; 3; 4]%nat.
Proof.
  destruct (formulate cost5 2 None None None None) as [m|] eqn:Hm;
    [|by vm_compute in Hm].
  assert (Hx : feasible tours5 m).
  { vm_compute in Hm. injection Hm as <-.
    apply (bool_decide_unpack _). vm_compute. reflexivity. }
  exists m. split; [done|].
  apply (selected_edge_count cost5 2 None None None None m tours5 Hm Hx).
Defined.

(** X6.  A call raises [IndexError], before the optimiser is called and
    with no change of the state, exactly when some row of the cost matrix has
    fewer entries than the matrix has rows; longer rows are accepted. *)
Theorem index_error_iff_short_row {Cost : Type}
    (optimize : Model Cost → option (Assignment * Cost)) (cost : Matrix Cost)
    (salesmen : nat) (min_cities max_cities output_flag time_limit : option Z)
    (fuel : nat) :
  mtsp_solver optimize fuel salesmen min_cities max_cities output_flag time_limit
    (call cost)
  = Raise IndexError (call cost)
  ↔ ∃ row, row ∈ cost ∧ (length row < length cost)%nat.
Proof.
  pose proof (formulate_rows cost salesmen min_cities max_cities output_flag time_limit)
    as Hrows.
  unfold mtsp_solver. cbn [call st_cost st_model st_selected st_routes].
  destruct (formulate cost salesmen min_cities max_cities output_flag time_limit)
    as [m|] eqn:Hm.
  - split.
    + intros Hr. exfalso.
      destruct (read_X m (optimize m)) as [x|]; [|done].
      unfold extraction in Hr. cbn [st_cost st_model st_selected] in Hr.
      destruct (extract _ _ _) as [[e|]|w] eqn:Hex; [|done|].
      * by apply extract_no_raise in Hex.
      * by destruct (optimize m) as [[? objVal]|].
    + intros (row & Hrow & Hlt). exfalso.
      assert (Hall : Forall (λ row, (length cost ≤ length row)%nat) cost).
      { apply Hrows. by eexists. }
      rewrite Forall_forall in Hall. specialize (Hall row Hrow). lia.
  - split; [|done]. intros _.
    assert (Hn : ¬ Forall (λ row, (length cost ≤ length row)%nat) cost).
    { intros Hall. apply Hrows in Hall as [? ?]. done. }
    apply not_Forall_Exists in Hn; [|apply _].
    apply Exists_exists in Hn as (row & Hrow & Hlt). exists row. split; [done|].
    unfold compose in Hlt. lia.
Qed.

Lemma index_error_iff_short_row_witness :
  mtsp_solver (fixed_solver tour3 0) 3 1 None None None None (call [[0; 1]; [1]])
  = Raise IndexError (call [[0; 1]; [1]]).
Proof.
  apply (index_error_iff_short_row (fixed_solver tour3 0) [[0; 1]; [1]] 1
           None None None None 3).
  exists [1]. split; [|simpl; lia].
  apply list_elem_of_further, list_elem_of_here.
Defined.

(** X7.  The variables of a model that was built: [e[i, j]] exists exactly
    for [i, j < n], is binary with objective coefficient [cost[i, j]], and
    has the upper bound 0 on the diagonal; [u[i]] exists exactly for [i < n]
    and ranges over [0 .. L]. *)
Theorem model_variables {Cost : Type} (cost : Matrix Cost)
    (salesmen : nat) (min_cities max_cities output_flag time_limit : option Z)
    (m : Model Cost) (i j : nat) :
  formulate cost salesmen min_cities max_cities output_flag time_limit = Some m →
  let n := length cost in
  let L := default (Z.of_nat n) max_cities in
  _vars m !! (i, j)
  = (if decide (i < n ∧ j < n)%nat
     then c ← cost_at cost i j;
          Some (mkVar 0 (if decide (i = j) then 0 else 1) BINARY (Some c) (e_name i j))
     else None)
  ∧ _uvars m !! i
    = (if decide (i < n)%nat then Some (mkVar 0 L INTEGER None (u_name i)) else None).
Proof.
  intros Hm n L.
  pose proof Hm as (ev & Hev & -> & -> & _)%formulate_Some.
  unfold create_e_vars in Hev. split.
  - rewrite forbid_loops_lookup.
    destruct (decide (i < n ∧ j < n)%nat) as [[Hi Hj]|Hout].
    + destruct (foldl_add_e_var_obj _ _ _ _ Hev (i, j)) as (c & Hc & Hl).
      { by apply elem_of_index_pairs. }
      simpl in Hc. rewrite Hc, Hl. simpl.
      destruct (decide (i = j)) as [->|Hne].
      * by rewrite decide_True.
      * rewrite decide_False; [done|]. by intros [? _].
    + destruct (foldl_add_e_var _ _ _ _ Hev (i, j)) as [_ Hnot].
      rewrite Hnot by (by rewrite elem_of_index_pairs). rewrite lookup_empty.
      by destruct (decide _).
  - destruct (decide (i < n)%nat) as [Hi|Hi].
    + by apply create_u_vars_lookup.
    + apply create_u_vars_lookup_ge. unfold n in *. lia.
Qed.

Lemma model_variables_witness :
  ∃ m,
    formulate cost3 1 None None None None = Some m
    ∧ _vars m !! (1%nat, 2%nat) = Some (mkVar 0 1 BINARY (Some 5) "e1_2")
    ∧ _uvars m !! 1%nat = Some (mkVar 0 3 INTEGER None "u1").
Proof.
  destruct (formulate cost3 1 None None None None) as [m|] eqn:Hm;
    [|by vm_compute in Hm].
  exists m. split; [done|].
  apply (model_variables cost3 1 None None None None m 1 2 Hm).
Defined.

(** X8.  On any list of edges the extraction never raises; once it returns
    for some bound on the iterations it returns the same for every larger
    bound, and it then returns already when every loop is given one more
    iteration than there are edges.  So it either returns within that bound
    or never returns. *)
Theorem extraction_returns_early_or_never (fuel salesmen : nat) (S : list (nat * nat)) :
  (∀ e, extract fuel salesmen S ≠ inl (Raised e))
  ∧ ∀ w, extract fuel salesmen S = inr w →
      extract (Datatypes.S (length S)) salesmen S = inr w
      ∧ ∀ fuel', (fuel ≤ fuel')%nat → extract fuel' salesmen S = inr w.
Proof.
  split; [intros e; apply extract_no_raise|].
  intros w Hw. split; [by eapply extract_bounded|].
  intros fuel' Hle. by eapply extract_mono.
Qed.

Lemma extraction_returns_early_or_never_witness :
  let w := {| routes := [[0; 1]; []]%nat; next_city := 0;
              selected := [(1, 2); (2, 1)]%nat |} in
  extract 5 2 [(0, 1); (1, 0); (1, 2); (2, 1)]%nat = inr w
  ∧ extract 9 2 [(0, 1); (1, 0); (1, 2); (2, 1)]%nat = inr w.
Proof.
  destruct (extraction_returns_early_or_never 7 2 [(0, 1); (1, 0); (1, 2); (2, 1)]%nat)
    as [_ Hw].
  destruct (Hw {| routes := [[0; 1]; []]%nat; next_city := 0;
                  selected := [(1, 2); (2, 1)]%nat |}) as [Hbound Hmono].
  - reflexivity.
  - split; [exact Hbound|]. apply Hmono. lia.
Defined.

(** X9.  When the extraction returns, on any list of edges, it returns one
    route per salesman; the edges the routes follow back to the depot and the
    edges left in the working list are together the edges it was given; and
    a route is either empty, no edge leaving the depot being left, or starts
    at the depot. *)
Theorem extraction_conserves_edges (fuel salesmen : nat) (S : list (nat * nat))
    (w : Walk) :
  extract fuel salesmen S = inr w →
  length (routes w) = salesmen
  ∧ next_city w = 0%nat
  ∧ concat (closed_edges <$> routes w) ++ selected w ≡ₚ S
  ∧ Forall (λ r, head r = Some 0%nat ∨ r = [] ∧ outdeg (selected w) 0 = 0%nat)
      (routes w).
Proof. apply extract_returns. Qed.

Lemma extraction_conserves_edges_witness :
  let w := {| routes := [[0; 1]; []]%nat; next_city := 0;
              selected := [(1, 2); (2, 1)]%nat |} in
  length (routes w) = 2%nat
  ∧ next_city w = 0%nat
  ∧ concat (closed_edges <$> routes w) ++ selected w
    ≡ₚ [(0, 1); (1, 0); (1, 2); (2, 1)]%nat
  ∧ Forall (λ r, head r = Some 0%nat ∨ r = [] ∧ outdeg (selected w) 0 = 0%nat)
      (routes w).
Proof.
  apply (extraction_conserves_edges 5 2 [(0, 1); (1, 0); (1, 2); (2, 1)]%nat).
  reflexivity.
Defined.



(** X12.  [generate_grid] on a start node [[x0, y0, ...]] returns the start
    node, then the nodes [[i, j]] of the columns [x0 + 1 .. x0 + x_size],
    each with the rows [j] such that [- y_size <= 2 * (j - y0) < y_size]
    (the rows are centred on [y0]), then the node [[x0 + x_size + 1, y0]];
    there are [x_size * y_size] nodes in between, none when a size is not
    positive, and [y_size] is [x_size] when it is not given. *)
Theorem generate_grid_nodes (x_size : Z) (y_size : option Z) (idx_start : list Z)
    (x0 y0 : Z) (rest : list Z) :
  idx_start = x0 :: y0 :: rest →
  let ys := default x_size y_size in
  ∃ grid,
    generate_grid x_size y_size (Some idx_start)
    = Some ([idx_start] ++ grid ++ [[x0 + x_size + 1; y0]])
    ∧ length grid = (Z.to_nat x_size * Z.to_nat ys)%nat
    ∧ ∀ p, p ∈ grid ↔
        ∃ i j, p = [i; j] ∧ x0 < i ≤ x0 + x_size ∧ - ys ≤ 2 * (j - y0) < ys.
Proof.
  intros -> ys. eexists. split; [reflexivity|]. split.
  - rewrite length_grid. fold ys. pose proof (half_floor_ceil ys).
    f_equal; f_equal; lia.
  - intros p. rewrite elem_of_grid. fold ys.
    split; intros (i & j & -> & Hi & Hj); exists i, j; (split; [done|]);
      (split; [lia|]); pose proof (half_bounds ys (j - y0)); lia.
Qed.

Lemma generate_grid_nodes_witness :
  ∃ grid,
    generate_grid 2 (Some 3) (Some [5; 7])
    = Some ([[5; 7]] ++ grid ++ [[5 + 2 + 1; 7]])
    ∧ length grid = (Z.to_nat 2 * Z.to_nat 3)%nat
    ∧ ∀ p, p ∈ grid ↔
        ∃ i j, p = [i; j] ∧ 5 < i ≤ 5 + 2 ∧ - 3 ≤ 2 * (j - 7) < 3.
Proof. apply (generate_grid_nodes 2 (Some 3) [5; 7] 5 7 []). reflexivity. Defined.

(** X13.  For a size [x_size >= 0] and a start node of two coordinates, the
    nodes that [generate_grid] returns are pairwise distinct. *)
Theorem generate_grid_no_duplicates (x_size : Z) (y_size : option Z) (x0 y0 : Z)
    (nodes : list (list Z)) :
  0 ≤ x_size →
  generate_grid x_size y_size (Some [x0; y0]) = Some nodes →
  NoDup nodes.
Proof.
  intros Hx [= <-]. simpl.
  apply NoDup_cons. split.
  - intros Hin. apply elem_of_app in Hin as [Hin|Hin].
    + apply elem_of_grid in Hin as (i & j & [= <- <-] & Hi & _). lia.
    + apply list_elem_of_singleton in Hin. injection Hin as Hin. lia.
  - apply NoDup_app. split_and!.
    + apply NoDup_grid.
    + intros p Hp Hf. apply list_elem_of_singleton in Hf. subst p.
      apply elem_of_grid in Hp as (i & j & [= <- <-] & Hi & _). lia.
    + apply NoDup_singleton.
Qed.

Lemma generate_grid_no_duplicates_witness :
  NoDup [[0; 0]; [1; -1]; [1; 0]; [2; -1]; [2; 0]; [3; 0]].
Proof. apply (generate_grid_no_duplicates 2 None 0 0); [lia|reflexivity]. Defined.

(** X14.  [generate_grid] raises [IndexError] exactly when the start node
    has fewer than two coordinates; the default start node is [[0, 0]]. *)
Theorem generate_grid_index_error (x_size : Z) (y_size : option Z)
    (idx_start : option (list Z)) :
  generate_grid x_size y_size idx_start = None
  ↔ ∃ s, idx_start = Some s ∧ (length s < 2)%nat.
Proof.
  destruct idx_start as [[|x0 [|y0 rest]]|]; simpl; split; try done.
  - intros _. exists []. split; [done|simpl; lia].
  - intros _. exists [x0]. split; [done|simpl; lia].
  - intros (s & [= <-] & Hl). simpl in Hl. lia.
  - by intros (s & [=] & _).
Qed.

Lemma generate_grid_index_error_witness : generate_grid 3 None (Some [7]) = None.
Proof.
  apply (generate_grid_index_error 3 None (Some [7])).
  exists [7]. split; [done|simpl; lia].
Defined.

(** X17.  On a route of three nodes or more the image adds up, from the
    left, the value of [cor] at the second node twice and at each later node
    but the last once; neither the first node nor the last contributes.  On
    a route of two nodes it is the value at the second node, once, and on a
    shorter route reading [route[1]] fails. *)
Theorem correlation_counts_second_node_twice (D : Dtype)
    (np_exp np_log : float → float)
    (p0 p1 pl : list (elt D)) (mid : list (list (elt D))) (max_range x y : float) :
  Forall (λ p, (2 ≤ length p)%nat) (p1 :: mid) →
  ∃ v vs,
    cor D np_exp np_log x y p1 max_range = Some v
    ∧ mapM (λ q, cor D np_exp np_log x y q max_range) mid = Some vs
    ∧ correlation_at D np_exp np_log (p0 :: p1 :: mid ++ [pl]) max_range x y
      = Some (foldl PrimFloat.add (v + v)%float vs)
    ∧ correlation_at D np_exp np_log [p0; p1] max_range x y = Some v
    ∧ correlation_at D np_exp np_log [p0] max_range x y = None
    ∧ correlation_at D np_exp np_log [] max_range x y = None.
Proof.
  intros [Hp1 Hmid]%Forall_cons.
  destruct (cor_is_Some D np_exp np_log x y p1 max_range Hp1) as [v Hv].
  destruct (mapM_cor_Some D np_exp np_log x y max_range mid Hmid) as [vs Hvs].
  exists v, vs. split_and!; [done|done| |  |done|done].
  - by apply correlation_at_long.
  - unfold correlation_at. cbn. rewrite Hv. done.
Qed.

Lemma correlation_counts_second_node_twice_witness :
  ∃ v vs,
    cor float64 exp_series log_series 0 0 [1; 2]%float 2 = Some v
    ∧ mapM (λ q, cor float64 exp_series log_series 0 0 q 2) [[3; 4]%float]
      = Some vs
    ∧ correlation_at float64 exp_series log_series
        ([0; 0] :: [1; 2] :: [[3; 4]] ++ [[5; 6]])%float 2 0 0
      = Some (foldl PrimFloat.add (v + v)%float vs)
    ∧ correlation_at float64 exp_series log_series [[0; 0]; [1; 2]]%float 2 0 0
      = Some v
    ∧ correlation_at float64 exp_series log_series [[0; 0]]%float 2 0 0 = None
    ∧ correlation_at float64 exp_series log_series [] 2 0 0 = None.
Proof.
  apply (correlation_counts_second_node_twice float64 exp_series log_series
           [0; 0]%float [1; 2]%float [5; 6]%float [[3; 4]%float] 2 0 0).
  repeat constructor; simpl; lia.
Defined.

(** X18.  The routes that [mtsp_solver] returns for the distance matrix of
    an array of nodes index rows of that array: [nodes[idx, :]] is defined
    for each of them, it has the length of the route, at least three rows,
    and its first row is the depot; when the nodes have two coordinates or
    more, the image of every route is defined at every point. *)
Theorem solved_routes_index_the_nodes (D : Dtype) (np_exp np_log : float → float)
    (optimize : Model float → option (Assignment * float))
    (nodes : list (list (elt D)))
    (salesmen : nat) (min_cities max_cities output_flag time_limit : option Z)
    (m : Model float) (x : Assignment) (objVal : float) (fuel : nat) :
  formulate (calculate_distances D nodes) salesmen min_cities max_cities
    output_flag time_limit = Some m →
  optimize m = Some (x, objVal) →
  feasible x m →
  (salesmen + length nodes < fuel)%nat →
  ∃ rs s' routes,
    mtsp_solver optimize fuel salesmen min_cities max_cities output_flag time_limit
      (call (calculate_distances D nodes))
    = Return (rs, objVal, m) s'
    ∧ mapM (rows nodes) (indexes (Routes rs)) = Some routes
    ∧ Forall2 (λ r route, length route = length r
                          ∧ (3 ≤ length route)%nat
                          ∧ route !! 0%nat = nodes !! 0%nat) rs routes
    ∧ (Forall (λ p, (2 ≤ length p)%nat) nodes →
       ∀ route max_range px py, route ∈ routes →
         is_Some (correlation_at D np_exp np_log route max_range px py)).
Proof.
  intros Hm Hopt Hx Hfuel.
  destruct (shape_calculate_distances D nodes) as [Hlen _].
  destruct (mtsp_solver_routes optimize _ _ _ _ _ _ _ _ _ fuel Hm Hopt Hx)
    as (rs & Hrun & _ & Hhd & Hedges & Hnodes); [by rewrite Hlen|].
  assert (Hall : ∀ r, r ∈ rs →
    ∃ route, rows nodes r = Some route ∧ length route = length r
      ∧ (3 ≤ length route)%nat ∧ route !! 0%nat = nodes !! 0%nat).
  { intros r Hr.
    destruct (feasible_route_bounds _ _ _ _ _ _ _ _ Hm Hx rs r Hhd Hedges Hnodes Hr)
      as (_ & _ & H2).
    pose proof Hhd as Hhd'. rewrite Forall_forall in Hhd'. specialize (Hhd' r Hr).
    destruct r as [|a t]; [done|]. injection Hhd' as ->. simpl in H2.
    assert (Hb : ∀ v, v ∈ t → (v < length nodes)%nat).
    { intros v Hv.
      assert (H : v ∈ concat (tail <$> rs)).
      { apply list_elem_of_split in Hr as (rs1 & rs2 & ->).
        rewrite fmap_app, concat_app, fmap_cons. simpl.
        apply elem_of_app. right. apply elem_of_app. by left. }
      rewrite Hnodes, Hlen in H. apply elem_of_range in H. lia. }
    destruct (rows_Some nodes (0%nat :: t)) as (route & Hroute & Hl & Hk).
    { apply Forall_cons. split; [|by apply Forall_forall].
      destruct t as [|v t']; [simpl in H2; lia|].
      specialize (Hb v (list_elem_of_here _ _)). lia. }
    exists route. split_and!; [done|done|simpl in Hl; lia|by apply (Hk 0%nat)]. }
  assert (Hroutes : ∃ routes, mapM (rows nodes) rs = Some routes
    ∧ Forall2 (λ r route, length route = length r ∧ (3 ≤ length route)%nat
                          ∧ route !! 0%nat = nodes !! 0%nat) rs routes).
  { clear Hrun Hhd Hedges Hnodes. induction rs as [|r rs IH].
    - exists []. by split.
    - destruct (Hall r) as (route & Hr & H); [by left|].
      destruct IH as (routes & Hrs & HF); [intros ??; apply Hall; by right|].
      exists (route :: routes). cbn. rewrite Hr. cbn. rewrite Hrs. cbn.
      split; [done|]. by constructor. }
  destruct Hroutes as (routes & Hrs & HF).
  eexists rs, _, routes. split; [done|]. rewrite indexes_Routes.
  split; [done|]. split; [done|].
  intros Hdims route max_range px py Hroute.
  apply list_elem_of_lookup in Hroute as [k Hk].
  destruct (Forall2_lookup_r _ _ _ _ _ HF Hk) as (r & Hrk & Hl & H3 & _).
  assert (Hin : r ∈ rs) by (by eapply list_elem_of_lookup_2).
  assert (Hrow : Forall (λ p, (2 ≤ length p)%nat) route).
  { assert (Hrr : rows nodes r = Some route).
    { apply mapM_Some in Hrs. by destruct (Forall2_lookup_lr _ _ _ _ _ _ Hrs Hrk Hk). }
    unfold rows in Hrr. apply mapM_Some in Hrr.
    apply Forall_forall. intros p Hp.
    apply list_elem_of_lookup in Hp as [i Hi].
    destruct (Forall2_lookup_r _ _ _ _ _ Hrr Hi) as (v & _ & Hv).
    rewrite Forall_forall in Hdims. apply Hdims. by eapply list_elem_of_lookup_2. }
  destruct route as [|p0 [|p1 rest]]; simpl in H3; [lia..|].
  destruct rest as [|q rest' _] using rev_ind; [simpl in H3; lia|].
  apply Forall_cons in Hrow as [_ Hrow].
  apply Forall_cons in Hrow as [Hp1 Hrest].
  apply Forall_app in Hrest as [Hmid _].
  destruct (cor_is_Some D np_exp np_log px py p1 max_range Hp1) as [v Hv].
  destruct (mapM_cor_Some D np_exp np_log px py max_range rest' Hmid) as [vs Hvs].
  rewrite (correlation_at_long _ _ _ _ _ _ _ _ _ _ _ _ Hv Hvs). by eexists.
Qed.

Lemma solved_routes_index_the_nodes_witness :
  ∃ m rs s' routes,
    formulate (calculate_distances float64 nodes5) 2 None None None None = Some m
    ∧ mtsp_solver (fixed_plane_solver tours5 6%float) 8 2 None None None None
        (call (calculate_distances float64 nodes5))
      = Return (rs, 6%float, m) s'
    ∧ mapM (rows nodes5) (indexes (Routes rs)) = Some routes
    ∧ Forall2 (λ r route, length route = length r
                          ∧ (3 ≤ length route)%nat
                          ∧ route !! 0%nat = nodes5 !! 0%nat) rs routes
    ∧ ∀ route max_range px py, route ∈ routes →
        is_Some (correlation_at float64 exp_series log_series
                   route max_range px py).
Proof.
  destruct (formulate (calculate_distances float64 nodes5) 2 None None None None)
    as [m|] eqn:Hm; [|by vm_compute in Hm].
  assert (Hx : feasible tours5 m).
  { vm_compute in Hm. injection Hm as <-.
    apply (bool_decide_unpack _). vm_compute. reflexivity. }
  destruct (solved_routes_index_the_nodes float64 exp_series log_series
              (fixed_plane_solver tours5 6%float)
              nodes5 2 None None None None
              m tours5 6%float 8 Hm) as (rs & s' & routes & Hrun & Hrows & HF & Hcor).
  - unfold fixed_plane_solver. by rewrite decide_True.
  - done.
  - simpl. lia.
  - exists m, rs, s', routes. split_and!; [done..|].
    apply Hcor. repeat constructor.
Defined.

(** X19.  On an array of int64 coordinates, such as [np.random.randint]
    makes for [generate_nodes] where C's long has 64 bits, the matrix of
    [calculate_distances] is symmetric and its diagonal is zero, whatever
    the coordinates: the difference of two coordinates may wrap around, and
    it then does so in both directions alike. *)
Theorem int64_distances_symmetric (nodes : list (list Z)) (i j : nat) :
  (i < length nodes)%nat → (j < length nodes)%nat →
  entry (calculate_distances int64 nodes) i j
  = Some (norm int64 (vsub int64 (nodes !!! i) (nodes !!! j)))
  ∧ entry (calculate_distances int64 nodes) i j
    = entry (calculate_distances int64 nodes) j i
  ∧ entry (calculate_distances int64 nodes) i i = Some 0%float.
Proof.
  intros Hi Hj. rewrite !entry_calculate_distances by done.
  split_and!; [done| |].
  - by rewrite norm_vsub_comm_int64.
  - by rewrite norm_vsub_diag_int64.
Qed.

Lemma int64_distances_symmetric_witness :
  let nodes := [[0; 0]; [3; 4]; [-9223372036854775808; 7]] in
  entry (calculate_distances int64 nodes) 0 2
  = Some (norm int64 (vsub int64 (nodes !!! 0%nat) (nodes !!! 2%nat)))
  ∧ entry (calculate_distances int64 nodes) 0 2
    = entry (calculate_distances int64 nodes) 2 0
  ∧ entry (calculate_distances int64 nodes) 0 0 = Some 0%float.
Proof.
  apply (int64_distances_symmetric [[0; 0]; [3; 4]; [-9223372036854775808; 7]] 0 2);
    simpl; lia.
Defined.
